(** * LiteDB: schema layout, backend dispatch and row mutation

    A shallow embedding of the parts of the LiteDB front end that the
    specification talks about:

    - [calculateLayout] of [src/components/SchemaVisualizer/index.tsx]
      (both copies present in that file);
    - the schema-loading effect of the [SchemaVisualizer] component;
    - the backend dispatch, [handleUpdateRow] and [handleSaveDatabase] of the
      [DatabaseView] component;
    - the contracts of the services the view calls ([dbService], [pgService]),
      whose implementation is not part of the sources at hand;
    - the handles and icons of [TableNode] ([src/unnamed/part_003]), the
      database name and the schema export of [DatabaseView]. *)

From stdpp Require Import gmap strings list fin_maps sorting pretty.

Set Warnings "-clear-no-such-hyp,-register-all".

Local Open Scope string_scope.
Local Open Scope list_scope.
Local Open Scope nat_scope.

(** ** Schema descriptors

    [ColumnInfo], [ForeignKeyInfo] and [IndexInfo] are declared in
    [@/lib/dbService]; the fields below are the ones the components read
    ([column.name], [column.type], [column.notnull], [column.pk], [fk.from],
    [fk.table], [fk.to], [idx.unique], [idx.columns]). *)

Record ColumnInfo := {
  col_name : string;
  col_type : string;
  col_notnull : Z;
  col_pk : Z;
}.

Record ForeignKeyInfo := {
  fk_from : string;
  fk_table : string;
  fk_to : string;
}.

Record IndexInfo := {
  idx_name : string;
  idx_columns : list string;
  idx_unique : bool;
}.

Record TableInfo := { ti_name : string }.

Record SchemaTable := {
  name : string;
  columns : list ColumnInfo;
  foreignKeys : list ForeignKeyInfo;
  indexes : list IndexInfo;
}.

(** ** JavaScript containers used by the layout

    A [Set<string>] that is iterated is an insertion-ordered list without
    duplicates; a [Set<string>] that is only tested for membership is a
    [gset]; a [Map] that is only read by key is a [gmap]. *)

Definition Set_add (x : string) (s : list string) : list string :=
  if decide (x ∈ s) then s else s ++ [x].

(** [l.forEach(x => body)] where [body] threads a state and may fail. *)
Fixpoint forEachM {A S : Type} (body : A → S → option S) (l : list A) (s : S)
  : option S :=
  match l with
  | [] => Some s
  | x :: l' =>
      match body x s with
      | Some s' => forEachM body l' s'
      | None => None
      end
  end.

(** The two mutable collections shared by all calls of [calculateLevel]. *)
Record LevelState := {
  levels : gmap string nat;
  visited : gset string;
}.

Definition visit (tableName : string) (st : LevelState) : LevelState :=
  {| levels := levels st; visited := {[tableName]} ∪ visited st |}.

Definition setLevel (tableName : string) (l : nat) (st : LevelState)
  : LevelState :=
  {| levels := <[tableName := l]> (levels st); visited := visited st |}.

(** *** Steps that read the same in both copies of [calculateLayout]

    Lines 67-80 and 612-625 (the relationship graph), 120-127 and 665-672
    (grouping by level), 130-135 and 675-680 (constants and the sorted
    levels) are the same text in both copies. The map
    [incomingRelationships] is filled next to [relationships] but never read
    afterwards, so it is left out. *)

Definition initRelationships (tables : list SchemaTable)
  : gmap string (list string) :=
  foldl (λ m table, <[name table := []]> m) ∅ tables.

Definition addForeignKeys (tables : list SchemaTable)
    (m : gmap string (list string)) : gmap string (list string) :=
  foldl (λ m table,
           foldl (λ m fk, alter (Set_add (fk_table fk)) (name table) m)
                 m (foreignKeys table))
        m tables.

Definition buildRelationships (tables : list SchemaTable)
  : gmap string (list string) :=
  addForeignKeys tables (initRelationships tables).

(** [levels.get(table.name) || 0] *)
Definition levelOf (lv : gmap string nat) (table : SchemaTable) : nat :=
  default 0 (lv !! name table).

Definition groupByLevel (lv : gmap string nat) (tables : list SchemaTable)
  : gmap nat (list SchemaTable) :=
  foldl (λ g table,
           let level := levelOf lv table in
           let g := match g !! level with
                    | Some _ => g
                    | None => <[level := []]> g
                    end in
           alter (λ group, group ++ [table]) level g)
        ∅ tables.

(** [Array.from(levelGroups.keys()).sort((a, b) => b - a)]: the keys are
    pairwise different, so the result is the one descending arrangement. *)
Definition descending (a b : nat) : Prop := (b ≤ a)%nat.

#[global] Instance descending_dec a b : Decision (descending a b).
Proof. unfold descending. apply _. Defined.

#[global] Instance descending_total : Total descending.
Proof. intros a b. unfold descending. lia. Qed.

Definition sortedLevels (g : gmap nat (list SchemaTable)) : list nat :=
  merge_sort descending (elements (dom g)).

Definition nodeWidth : Z := 250.
Definition nodeHeight : Z := 200.
Definition horizontalGap : Z := 100.
Definition verticalGap : Z := 80.

Record Position := { pos_x : Z; pos_y : Z }.

Definition nodePosition (groupSize levelIndex tableIndex : nat) : Position :=
  let levelWidth := (Z.of_nat groupSize * (nodeWidth + horizontalGap))%Z in
  let startX := (- (levelWidth / 2) + (nodeWidth / 2))%Z in
  {| pos_x := (startX + Z.of_nat tableIndex * (nodeWidth + horizontalGap))%Z;
     pos_y := (Z.of_nat levelIndex * (nodeHeight + verticalGap))%Z |}.

(** Upper bound on the nesting depth of [calculateLevel]: one more than the
    number of table names and foreign-key targets. *)
Definition allNames (tables : list SchemaTable) : list string :=
  (name <$> tables) ++ (tables ≫= λ t, fk_table <$> foreignKeys t).

Definition levelFuel (tables : list SchemaTable) : nat :=
  S (length (allNames tables)).

Record EdgeStyle := { stroke : string; strokeWidth : Z }.
Record LabelStyle := { ls_fill : string; fontSize : Z }.
Record LabelBgStyle := { lbs_fill : string; fillOpacity : string }.

Record Edge := {
  edge_id : string;
  source : string;
  sourceHandle : string;
  target : string;
  targetHandle : string;
  edge_type : string;
  animated : bool;
  style : EdgeStyle;
  label : string;
  labelStyle : LabelStyle;
  labelBgStyle : LabelBgStyle;
}.

(** ** First copy of [calculateLayout] (lines 62-180) *)
Module First.

Record TableNodeData := {
  data_name : string;
  data_columns : list ColumnInfo;
  data_foreignKeys : list ForeignKeyInfo;
  data_indexes : list IndexInfo;
}.

Record Node := {
  id : string;
  type : string;
  position : Position;
  data : TableNodeData;
}.

Record Layout := { nodes : list Node; edges : list Edge }.

Definition edgeStyle : EdgeStyle :=
  {| stroke := "#a855f7"; strokeWidth := 2 |}.

(** [calculateLevel] recurses through the foreign keys; [fuel] bounds the
    nesting depth and [None] stands for a call that would nest deeper. The
    loop state is [(maxLevel, st)]. *)
Fixpoint calculateLevel (fuel : nat) (relationships : gmap string (list string))
    (tableName : string) (currentLevel : nat) (st : LevelState)
  : option (nat * LevelState) :=
  match fuel with
  | O => None
  | S fuel' =>
      if decide (tableName ∈ visited st)
      then Some (default 0 (levels st !! tableName), st)
      else
        let st := visit tableName st in
        let maxLevel := currentLevel in
        match relationships !! tableName with
        | Some refs =>
            match
              forEachM (λ ref '(maxLevel, st),
                if decide (ref ∈ visited st) then Some (maxLevel, st)
                else
                  match calculateLevel fuel' relationships ref
                                       (currentLevel + 1) st with
                  | Some (refLevel, st') =>
                      Some (Nat.max maxLevel currentLevel, st')
                  | None => None
                  end)
                refs (maxLevel, st)
            with
            | Some (maxLevel, st) =>
                Some (maxLevel, setLevel tableName maxLevel st)
            | None => None
            end
        | None => Some (maxLevel, setLevel tableName maxLevel st)
        end
  end.

(** The two passes over [tables] that start [calculateLevel]. *)
Definition startLeaves (fuel : nat) (relationships : gmap string (list string))
    (tables : list SchemaTable) (st : LevelState) : option LevelState :=
  forEachM (λ table st,
    if decide (length <$> relationships !! name table = Some 0)
    then snd <$> calculateLevel fuel relationships (name table) 0 st
    else Some st) tables st.

Definition startRemaining (fuel : nat)
    (relationships : gmap string (list string))
    (tables : list SchemaTable) (st : LevelState) : option LevelState :=
  forEachM (λ table st,
    if decide (is_Some (levels st !! name table)) then Some st
    else snd <$> calculateLevel fuel relationships (name table) 0 st)
    tables st.

Definition assignLevels (fuel : nat) (tables : list SchemaTable)
  : option (gmap string nat) :=
  let relationships := buildRelationships tables in
  match startLeaves fuel relationships tables
          {| levels := ∅; visited := ∅ |} with
  | Some st => levels <$> startRemaining fuel relationships tables st
  | None => None
  end.

Definition mkNode (groupSize levelIndex tableIndex : nat)
    (table : SchemaTable) : Node :=
  {| id := name table;
     type := "tableNode";
     position := nodePosition groupSize levelIndex tableIndex;
     data := {| data_name := name table;
                data_columns := columns table;
                data_foreignKeys := foreignKeys table;
                data_indexes := indexes table |} |}.

Definition placeNodes (g : gmap nat (list SchemaTable)) : list Node :=
  concat (imap (λ levelIndex level,
                  let tablesInLevel := default [] (g !! level) in
                  imap (mkNode (length tablesInLevel) levelIndex)
                       tablesInLevel)
               (sortedLevels g)).

Definition mkEdge (table : SchemaTable) (index : nat) (fk : ForeignKeyInfo)
  : Edge :=
  {| edge_id := name table +:+ "-" +:+ fk_from fk +:+ "-" +:+ fk_table fk
                  +:+ "-" +:+ fk_to fk;
     source := name table;
     sourceHandle := name table +:+ "-" +:+ fk_from fk +:+ "-source";
     target := fk_table fk;
     targetHandle := fk_table fk +:+ "-" +:+ fk_to fk +:+ "-target";
     edge_type := "smoothstep";
     animated := true;
     style := edgeStyle;
     label := fk_from fk;
     labelStyle := {| ls_fill := "#a855f7"; fontSize := 10 |};
     labelBgStyle := {| lbs_fill := "hsl(var(--card))";
                        fillOpacity := "0.8" |} |}.

Definition makeEdges (tables : list SchemaTable) : list Edge :=
  tables ≫= λ table, imap (mkEdge table) (foreignKeys table).

Definition calculateLayoutFrom (lv : gmap string nat)
    (tables : list SchemaTable) : Layout :=
  {| nodes := placeNodes (groupByLevel lv tables);
     edges := makeEdges tables |}.

Definition calculateLayoutWith (fuel : nat) (tables : list SchemaTable)
  : option Layout :=
  (λ lv, calculateLayoutFrom lv tables) <$> assignLevels fuel tables.

Definition calculateLayout (tables : list SchemaTable) : option Layout :=
  calculateLayoutWith (levelFuel tables) tables.

End First.

(** ** Second copy of [calculateLayout] (lines 607-726)

    It takes the extra argument [onEditTable], stores it in every node's data
    and draws white edges; [calculateLevel] drops the result of the nested
    call instead of binding it to an unused constant, and the edge loop does
    not name the index. *)
Module Second.

Section with_callback.
(** The type of [(name: string) => void]. *)
Context {Callback : Type}.

Record TableNodeData := {
  data_name : string;
  data_columns : list ColumnInfo;
  data_foreignKeys : list ForeignKeyInfo;
  data_indexes : list IndexInfo;
  data_onEdit : option Callback;
}.

Record Node := {
  id : string;
  type : string;
  position : Position;
  data : TableNodeData;
}.

Record Layout := { nodes : list Node; edges : list Edge }.

Definition edgeStyle : EdgeStyle :=
  {| stroke := "#ffffff"; strokeWidth := 2 |}.

Fixpoint calculateLevel (fuel : nat)
    (relationships : gmap string (list string))
    (tableName : string) (currentLevel : nat) (st : LevelState)
  : option (nat * LevelState) :=
  match fuel with
  | O => None
  | S fuel' =>
      if decide (tableName ∈ visited st)
      then Some (default 0 (levels st !! tableName), st)
      else
        let st := visit tableName st in
        let maxLevel := currentLevel in
        match relationships !! tableName with
        | Some refs =>
            match
              forEachM (λ ref '(maxLevel, st),
                if decide (ref ∈ visited st) then Some (maxLevel, st)
                else
                  match calculateLevel fuel' relationships ref
                                       (currentLevel + 1) st with
                  | Some r => Some (Nat.max maxLevel currentLevel, snd r)
                  | None => None
                  end)
                refs (maxLevel, st)
            with
            | Some (maxLevel, st) =>
                Some (maxLevel, setLevel tableName maxLevel st)
            | None => None
            end
        | None => Some (maxLevel, setLevel tableName maxLevel st)
        end
  end.

Definition startLeaves (fuel : nat)
    (relationships : gmap string (list string))
    (tables : list SchemaTable) (st : LevelState) : option LevelState :=
  forEachM (λ table st,
    if decide (length <$> relationships !! name table = Some 0)
    then snd <$> calculateLevel fuel relationships (name table) 0 st
    else Some st) tables st.

Definition startRemaining (fuel : nat)
    (relationships : gmap string (list string))
    (tables : list SchemaTable) (st : LevelState) : option LevelState :=
  forEachM (λ table st,
    if decide (is_Some (levels st !! name table)) then Some st
    else snd <$> calculateLevel fuel relationships (name table) 0 st)
    tables st.

Definition assignLevels (fuel : nat) (tables : list SchemaTable)
  : option (gmap string nat) :=
  let relationships := buildRelationships tables in
  match startLeaves fuel relationships tables
          {| levels := ∅; visited := ∅ |} with
  | Some st => levels <$> startRemaining fuel relationships tables st
  | None => None
  end.

Definition mkNode (onEditTable : option Callback)
    (groupSize levelIndex tableIndex : nat) (table : SchemaTable) : Node :=
  {| id := name table;
     type := "tableNode";
     position := nodePosition groupSize levelIndex tableIndex;
     data := {| data_name := name table;
                data_columns := columns table;
                data_foreignKeys := foreignKeys table;
                data_indexes := indexes table;
                data_onEdit := onEditTable |} |}.

Definition placeNodes (onEditTable : option Callback)
    (g : gmap nat (list SchemaTable)) : list Node :=
  concat (imap (λ levelIndex level,
                  let tablesInLevel := default [] (g !! level) in
                  imap (mkNode onEditTable (length tablesInLevel) levelIndex)
                       tablesInLevel)
               (sortedLevels g)).

Definition mkEdge (table : SchemaTable) (fk : ForeignKeyInfo) : Edge :=
  {| edge_id := name table +:+ "-" +:+ fk_from fk +:+ "-" +:+ fk_table fk
                  +:+ "-" +:+ fk_to fk;
     source := name table;
     sourceHandle := name table +:+ "-" +:+ fk_from fk +:+ "-source";
     target := fk_table fk;
     targetHandle := fk_table fk +:+ "-" +:+ fk_to fk +:+ "-target";
     edge_type := "smoothstep";
     animated := true;
     style := edgeStyle;
     label := fk_from fk;
     labelStyle := {| ls_fill := "#ffffff"; fontSize := 10 |};
     labelBgStyle := {| lbs_fill := "hsl(var(--card))";
                        fillOpacity := "0.8" |} |}.

Definition makeEdges (tables : list SchemaTable) : list Edge :=
  tables ≫= λ table, mkEdge table <$> foreignKeys table.

Definition calculateLayoutFrom (lv : gmap string nat)
    (tables : list SchemaTable) (onEditTable : option Callback) : Layout :=
  {| nodes := placeNodes onEditTable (groupByLevel lv tables);
     edges := makeEdges tables |}.

Definition calculateLayoutWith (fuel : nat) (tables : list SchemaTable)
    (onEditTable : option Callback) : option Layout :=
  (λ lv, calculateLayoutFrom lv tables onEditTable)
    <$> assignLevels fuel tables.

Definition calculateLayout (tables : list SchemaTable)
    (onEditTable : option Callback) : option Layout :=
  calculateLayoutWith (levelFuel tables) tables onEditTable.

End with_callback.

Arguments TableNodeData : clear implicits.
Arguments Node : clear implicits.
Arguments Layout : clear implicits.

End Second.

(** The table a node was made from, read back from the node's data. *)
Definition nodeTable (n : First.Node) : SchemaTable :=
  {| name := First.data_name (First.data n);
     columns := First.data_columns (First.data n);
     foreignKeys := First.data_foreignKeys (First.data n);
     indexes := First.data_indexes (First.data n) |}.

(** What the two copies are compared on. *)
Record NodeCore := {
  core_id : string;
  core_type : string;
  core_position : Position;
  core_name : string;
  core_columns : list ColumnInfo;
  core_foreignKeys : list ForeignKeyInfo;
  core_indexes : list IndexInfo;
}.

Definition firstCore (n : First.Node) : NodeCore :=
  {| core_id := First.id n; core_type := First.type n;
     core_position := First.position n;
     core_name := First.data_name (First.data n);
     core_columns := First.data_columns (First.data n);
     core_foreignKeys := First.data_foreignKeys (First.data n);
     core_indexes := First.data_indexes (First.data n) |}.

Definition secondCore {Callback} (n : Second.Node Callback) : NodeCore :=
  {| core_id := Second.id n; core_type := Second.type n;
     core_position := Second.position n;
     core_name := Second.data_name (Second.data n);
     core_columns := Second.data_columns (Second.data n);
     core_foreignKeys := Second.data_foreignKeys (Second.data n);
     core_indexes := Second.data_indexes (Second.data n) |}.

(** An edge without its colours. *)
Definition edgeCore (e : Edge)
  : string * (string * string * string * string) * (string * bool * string)
    * (Z * Z * LabelBgStyle) :=
  (edge_id e, (source e, sourceHandle e, target e, targetHandle e),
   (edge_type e, animated e, label e),
   (strokeWidth (style e), fontSize (labelStyle e), labelBgStyle e)).

(** ** Notions used in the proofs about the layout *)

(** Every name stored in the relationship graph belongs to [T]. *)
Definition refs_within (T : gset string) (m : gmap string (list string)) : Prop :=
  ∀ k refs ref, m !! k = Some refs → ref ∈ refs → ref ∈ T.

(** The table names and the foreign-key targets of the input. *)
Definition knownNames (tables : list SchemaTable) : gset string :=
  list_to_set (allNames tables).

(** The tables of one level, in input order. *)
Definition groupOf (lv : gmap string nat) (level : nat)
    (tables : list SchemaTable) : list SchemaTable :=
  filter (λ t, levelOf lv t = level) tables.

(** What one call of [calculateLevel] does to the shared state: names are
    only added, every name added to [visited] has its level recorded by the
    time the call returns, and nothing outside [U] is touched. *)
Definition grows (U : gset string) (st st' : LevelState) : Prop :=
  visited st ⊆ visited st' ∧ visited st' ⊆ U ∧
  dom (levels st) ⊆ dom (levels st') ∧
  visited st' ∖ visited st ⊆ dom (levels st').

(** * The [DatabaseView] component

    [src/unnamed/part_001] and [src/unnamed/part_002] are two revisions of the
    same component; [isDeleteOperation], [handleUpdateRow],
    [handleSaveDatabase], [handleRefresh], [handleBackClick], the backend
    flags and the stable accessors are the same text in both. *)

(** ** JavaScript values held by rows and requests *)

Inductive JSVal :=
| JNull
| JBool (b : bool)
| JNum (n : Z)
| JStr (s : string)
| JArr (items : list JSVal).

#[global] Instance JSVal_eq_dec : EqDecision JSVal.
Proof.
  refine (fix go (x y : JSVal) {struct x} : Decision (x = y) :=
    match x, y with
    | JNull, JNull => left eq_refl
    | JBool a, JBool b => cast_if (decide (a = b))
    | JNum a, JNum b => cast_if (decide (a = b))
    | JStr a, JStr b => cast_if (decide (a = b))
    | JArr a, JArr b => cast_if (list_eq_dec (dec := go) a b)
    | _, _ => right _
    end); congruence.
Defined.

(** A plain object read by key: [RowData] is [Record<string, any>]. *)
Abbreviation RowData := (gmap string JSVal).

(** [items.join(sep)] on strings. *)
Fixpoint join (sep : string) (items : list string) : string :=
  match items with
  | [] => ""
  | [s] => s
  | s :: rest => s +:+ sep +:+ join sep rest
  end.

(** The conversion a template literal applies to an interpolated value.
    Numbers are integers here; an array converts to its elements joined by
    commas, with [null] elements giving the empty string. *)
Fixpoint toString (v : JSVal) : string :=
  match v with
  | JNull => "null"
  | JBool true => "true"
  | JBool false => "false"
  | JNum n => pretty n
  | JStr s => s
  | JArr items =>
      join "," ((fix each (l : list JSVal) : list string :=
                   match l with
                   | [] => []
                   | JNull :: l' => "" :: each l'
                   | x :: l' => toString x :: each l'
                   end) items)
  end.

Definition isArray (v : option JSVal) : bool :=
  match v with Some (JArr _) => true | _ => false end.

Definition isString (v : option JSVal) : bool :=
  match v with Some (JStr _) => true | _ => false end.

(** [obj.type === 'delete'] *)
Definition isDeleteTag (v : option JSVal) : bool :=
  match v with Some (JStr s) => bool_decide (s = "delete") | _ => false end.

Module DatabaseView.

(** [value] is typed [RowData | DeleteOperation], so the first test of the
    guard ([null] or not an object) is never taken for an argument of
    [handleUpdateRow]. *)
Definition isDeleteOperation (value : RowData) : bool :=
  isDeleteTag (value !! "type")
  && isArray (value !! "rowIds")
  && isString (value !! "primaryKeyColumn").

Definition rowIds (value : RowData) : list JSVal :=
  match value !! "rowIds" with Some (JArr items) => items | _ => [] end.

Definition primaryKeyColumn (value : RowData) : string :=
  match value !! "primaryKeyColumn" with Some (JStr s) => s | _ => "" end.

(** What the component asks of its collaborators, in the order asked. *)
Inductive Call :=
| PgDeleteRows (table pk : string) (ids : list JSVal)
| PgUpdateRow (table : string) (oldRow newRow : RowData)
| DbExecuteBatchOperations (statements : list string)
| DbUpdateRow (table : string) (oldRow newRow : RowData)
| DbExportDatabase
| SaveDatabase (path : string) (bytes : list Z)
| SetLastSaved
| RefreshPostgresTables
| RefreshSqliteTables
| DisconnectPostgres
| Navigate (path : string) (replace : bool)
| Toast (title description : string) (destructive : bool).

(** The answers of [pgService] and [dbService]: [None] is a thrown
    exception (a rejected promise), [Some b] the boolean handed back. *)
Record Services := {
  pg_deleteRows : string → string → list JSVal → option bool;
  pg_updateRow : string → RowData → RowData → option bool;
  db_executeBatchOperations : list string → option bool;
  db_updateRow : string → RowData → RowData → option bool;
}.

(** The text built on the embedded path of [handleUpdateRow]. *)
Definition deleteSql (selectedTable : string) (newRow : RowData) : string :=
  "DELETE FROM " +:+ selectedTable +:+ " WHERE " +:+ primaryKeyColumn newRow
    +:+ " IN ("
    +:+ join "," ((λ id, "'" +:+ toString id +:+ "'") <$> rowIds newRow)
    +:+ ")".

Definition postgresToast : Call :=
  Toast "Error" "Failed to update/delete PostgreSQL row(s)" true.

(** [handleUpdateRow]: the result is [Some b] when the promise resolves to
    [b] and [None] when it rejects; the list holds the calls made. *)
Definition handleUpdateRow (svc : Services) (selectedTable : string)
    (isPostgresActive : bool) (oldRow : option RowData) (newRow : RowData)
  : option bool * list Call :=
  if bool_decide (selectedTable = "") then (Some false, [])
  else if isPostgresActive then
    if isDeleteOperation newRow then
      let call := PgDeleteRows selectedTable (primaryKeyColumn newRow)
                               (rowIds newRow) in
      match pg_deleteRows svc selectedTable (primaryKeyColumn newRow)
              (rowIds newRow) with
      | Some b => (Some b, [call])
      | None => (Some false, [call; postgresToast])
      end
    else
      match oldRow with
      | Some old =>
          match pg_updateRow svc selectedTable old newRow with
          | Some b => (Some b, [PgUpdateRow selectedTable old newRow])
          | None => (Some false,
                     [PgUpdateRow selectedTable old newRow; postgresToast])
          end
      | None => (Some false, [])
      end
  else
    if isDeleteOperation newRow then
      let sql := deleteSql selectedTable newRow in
      (db_executeBatchOperations svc [sql], [DbExecuteBatchOperations [sql]])
    else
      match oldRow with
      | Some old =>
          (db_updateRow svc selectedTable old newRow,
           [DbUpdateRow selectedTable old newRow])
      | None => (Some false, [])
      end.

(** Whether a call hands SQL text or row identifiers to a backend. *)
Definition reachesBackend (c : Call) : bool :=
  match c with
  | PgDeleteRows _ _ _ | PgUpdateRow _ _ _
  | DbExecuteBatchOperations _ | DbUpdateRow _ _ _ => true
  | _ => false
  end.

(** Whether the row identifiers travel as values of the call. *)
Definition idsAsParameters (ids : list JSVal) (c : Call) : bool :=
  match c with
  | PgDeleteRows _ _ ids' => bool_decide (ids' = ids)
  | _ => false
  end.

(** *** Backend selection (lines 64-134 of part_001) *)

Record TableData := { td_columns : list string; td_rows : list RowData }.

(** The four accessors each hook hands out. The networked ones answer with
    promises; an accessor is identified with the value it resolves to. *)
Record BackendFuncs := {
  getTableData : string → TableData;
  getTableColumns : string → list ColumnInfo;
  getForeignKeys : string → list ForeignKeyInfo;
  getIndexes : string → list IndexInfo;
}.

(** What [useDatabase] and [usePostgres] return in one render. *)
Record Hooks := {
  isLoaded : bool;
  isLoading : bool;
  sqliteTables : list TableInfo;
  sqliteFuncs : BackendFuncs;
  isConnected : bool;
  isConnecting : bool;
  postgresTables : list TableInfo;
  postgresFuncs : BackendFuncs;
}.

Inductive Backend := Postgres | Sqlite.

(** The constants and refs of one render of the component. *)
Record View := {
  isPostgresActive : bool;
  isSqliteActive : bool;
  tables : list TableInfo;
  databaseAvailable : bool;
  isLoadingDatabase : bool;
  isPostgresActiveRef : bool;
  sqliteFuncsRef : BackendFuncs;
  postgresFuncsRef : BackendFuncs;
}.

Definition render (h : Hooks) : View :=
  let isPostgresActive := isConnected h in
  let isSqliteActive := isLoaded h && negb isPostgresActive in
  {| isPostgresActive := isPostgresActive;
     isSqliteActive := isSqliteActive;
     tables := if isPostgresActive then postgresTables h else sqliteTables h;
     databaseAvailable := isPostgresActive || isSqliteActive;
     isLoadingDatabase := isLoading h || isConnecting h;
     isPostgresActiveRef := isPostgresActive;
     sqliteFuncsRef := sqliteFuncs h;
     postgresFuncsRef := postgresFuncs h |}.

Definition getTableColumnsStable (v : View) (tableName : string)
  : list ColumnInfo :=
  if isPostgresActiveRef v then getTableColumns (postgresFuncsRef v) tableName
  else getTableColumns (sqliteFuncsRef v) tableName.

Definition getForeignKeysStable (v : View) (tableName : string)
  : list ForeignKeyInfo :=
  if isPostgresActiveRef v then getForeignKeys (postgresFuncsRef v) tableName
  else getForeignKeys (sqliteFuncsRef v) tableName.

Definition getIndexesStable (v : View) (tableName : string)
  : list IndexInfo :=
  if isPostgresActiveRef v then getIndexes (postgresFuncsRef v) tableName
  else getIndexes (sqliteFuncsRef v) tableName.

(** The body of [loadTableData]: columns and data of the selected table. *)
Definition loadTableData (v : View) (selectedTable : string)
  : list ColumnInfo * TableData :=
  if isPostgresActiveRef v
  then (getTableColumns (postgresFuncsRef v) selectedTable,
        getTableData (postgresFuncsRef v) selectedTable)
  else (getTableColumns (sqliteFuncsRef v) selectedTable,
        getTableData (sqliteFuncsRef v) selectedTable).

(** [connectionType={isPostgresActive ? 'postgres' : 'sqlite'}] *)
Definition connectionType (v : View) : Backend :=
  if isPostgresActive v then Postgres else Sqlite.

(** The backend the accessors of a render go to. *)
Definition liveBackend (v : View) : Backend :=
  if isPostgresActiveRef v then Postgres else Sqlite.

Definition funcsOf (h : Hooks) (b : Backend) : BackendFuncs :=
  match b with Postgres => postgresFuncs h | Sqlite => sqliteFuncs h end.

Definition tablesOf (h : Hooks) (b : Backend) : list TableInfo :=
  match b with Postgres => postgresTables h | Sqlite => sqliteTables h end.

(** *** [handleSaveDatabase] (lines 258-308 of part_001) *)

(** The answer of [window.electron.saveDatabase]. *)
Record SaveResult := { success : bool; error : option string }.

(** [result.error || "Failed to save database"] *)
Definition saveError (r : SaveResult) : string :=
  match error r with
  | Some e => if bool_decide (e = "") then "Failed to save database" else e
  | None => "Failed to save database"
  end.

(** [exported] is what [dbService.exportDatabase()] hands back ([None] for
    [null]), [currentFilePath] is [dbService.currentFilePath], [electron]
    is [window.electron] when present, answering [None] when
    [saveDatabase] throws. *)
Definition handleSaveDatabase (isPostgresActive : bool)
    (exported : option (list Z)) (currentFilePath : option string)
    (electron : option (string → list Z → option SaveResult)) : list Call :=
  if isPostgresActive then
    [Toast "Information"
           "PostgreSQL databases are saved on the server automatically" false]
  else
    DbExportDatabase ::
    match exported with
    | None => [Toast "Error" "No database changes to save" true]
    | Some data =>
        match currentFilePath, electron with
        | Some path, Some saveDatabase =>
            if bool_decide (path = "") then
              [Toast "Error"
                 "No database file loaded. Please load a database file first."
                 true]
            else
              SaveDatabase path data ::
              match saveDatabase path data with
              | Some result =>
                  if success result then
                    [SetLastSaved;
                     Toast "Success" "Database saved successfully" false]
                  else [Toast "Error" (saveError result) true]
              | None => [Toast "Error" "Failed to save database" true]
              end
        | _, _ =>
            [Toast "Error"
               "No database file loaded. Please load a database file first."
               true]
        end
    end.

Definition isWrite (c : Call) : bool :=
  match c with SaveDatabase _ _ => true | _ => false end.

Definition isToast (c : Call) : bool :=
  match c with Toast _ _ _ => true | _ => false end.

(** *** [handleRefresh] and [handleBackClick] *)

Definition handleRefresh (isPostgresActive : bool) : list Call :=
  (if isPostgresActive then RefreshPostgresTables else RefreshSqliteTables)
    :: [Toast "Refreshed" "Table list has been refreshed" false].

Definition handleBackClick (isPostgresActive : bool) : list Call :=
  (if isPostgresActive then [DisconnectPostgres] else [])
    ++ [Navigate "/" true].

End DatabaseView.

(** * The embedded session's export

    Modelled from the spec: [dbService.exportDatabase] (the [readAll] of the
    Connection Session) is not part of the sources at hand. The spec gives an
    embedded session a file path and an in-memory buffer of edits that
    accumulate until they are saved, and lets [readAll] serialize the current
    in-memory state, failing only if no changes exist to export, as a signal
    and not as a hard error. *)
Module EmbeddedSession.

Record Session := {
  currentFilePath : option string;
  image : list Z;
  hasChanges : bool;
}.

(** [None] is the signal handed to the caller; nothing is thrown. *)
Definition exportDatabase (s : Session) : option (list Z) :=
  if hasChanges s then Some (image s) else None.

(** The save path of the view on an embedded session. *)
Definition save (s : Session)
    (electron : option (string → list Z → option DatabaseView.SaveResult))
  : list DatabaseView.Call :=
  DatabaseView.handleSaveDatabase false (exportDatabase s)
    (currentFilePath s) electron.

End EmbeddedSession.

(** * The [SchemaVisualizer] component (first copy, lines 182-311) *)
Module SchemaVisualizer.

(** The three props read through refs; [columns || []] and the like make
    every answer a list. *)
Record Accessors := {
  getTableColumns : string → list ColumnInfo;
  getForeignKeys : string → list ForeignKeyInfo;
  getIndexes : string → list IndexInfo;
}.

Record State := {
  nodes : list First.Node;
  edges : list Edge;
  schemaData : list SchemaTable;
  loading : bool;
  hasLoaded : bool;
}.

Definition initial : State :=
  {| nodes := []; edges := []; schemaData := []; loading := true;
     hasLoaded := false |}.

(** [tables.map(t => t.name).sort().join(',')]. The default sort compares
    code units; [String.le] compares bytes, which is the same order on
    ASCII names. *)
Definition tableKey (tables : list TableInfo) : string :=
  join "," (merge_sort String.le (ti_name <$> tables)).

Definition loadSchemaData (acc : Accessors) (tables : list TableInfo)
  : list SchemaTable :=
  (λ table, {| name := ti_name table;
               columns := getTableColumns acc (ti_name table);
               foreignKeys := getForeignKeys acc (ti_name table);
               indexes := getIndexes acc (ti_name table) |}) <$> tables.

(** The body of the load effect, run to completion while mounted. When
    [calculateLayout] fails the [catch] keeps the state updates made before
    it. *)
Definition loadEffect (acc : Accessors) (tables : list TableInfo) (st : State)
  : State :=
  if hasLoaded st && (length (schemaData st) =? length tables) then st
  else if 0 <? length tables then
    let data := loadSchemaData acc tables in
    match First.calculateLayout data with
    | Some layout =>
        {| nodes := First.nodes layout; edges := First.edges layout;
           schemaData := data; loading := false; hasLoaded := true |}
    | None =>
        {| nodes := nodes st; edges := edges st;
           schemaData := data; loading := false; hasLoaded := true |}
    end
  else
    {| nodes := nodes st; edges := edges st; schemaData := schemaData st;
       loading := false; hasLoaded := hasLoaded st |}.

(** The effect depends on [tableKey] only: it runs after the first render
    and after each render whose key differs from the previous one. *)
Definition mount (acc : Accessors) (tables : list TableInfo) : State :=
  loadEffect acc tables initial.

Definition update (acc : Accessors) (previous tables : list TableInfo)
    (st : State) : State :=
  if bool_decide (tableKey previous = tableKey tables) then st
  else loadEffect acc tables st.




End SchemaVisualizer.

(** * The batch execution engine

    Modelled from the spec: [dbService.executeBatchOperations] is called by
    [handleUpdateRow] but is not part of the sources at hand. The spec's
    engine takes the statements of a script and a flag; in atomic mode it
    begins an explicit transaction before the first statement, executes the
    statements in source order, and on the first failure aborts and rolls
    back, so that no later statement runs and no earlier effect survives; in
    the other mode each statement commits on its own and a failure is
    recorded while execution continues. *)
Module BatchEngine.

Section engine.
(** The database as a reader sees it, a statement, and what the backend
    does with one statement: [None] when it rejects the statement,
    otherwise the new state and the number of rows affected. *)
Context {DB Stmt : Type}.
Variable run : Stmt → DB → option (DB * nat).

Inductive Event :=
| Begin
| Exec (position : nat)
| Commit
| Rollback.

Record StatementResult := {
  position : nat;
  succeeded : bool;
  rowsAffected : nat;
}.

Record BatchResult := {
  statements : list StatementResult;
  overallSuccess : bool;
}.

(** Statements from position [i] on, inside the open transaction; the
    last component is [None] once a statement has failed. *)
Fixpoint runAtomic (i : nat) (stmts : list Stmt) (db : DB)
  : list StatementResult * list Event * option DB :=
  match stmts with
  | [] => ([], [], Some db)
  | s :: rest =>
      match run s db with
      | Some (db', n) =>
          let '(results, events, final) := runAtomic (S i) rest db' in
          ({| position := i; succeeded := true; rowsAffected := n |}
             :: results,
           Exec i :: events, final)
      | None =>
          ([{| position := i; succeeded := false; rowsAffected := 0 |}],
           [Exec i], None)
      end
  end.

Fixpoint runEach (i : nat) (stmts : list Stmt) (db : DB)
  : list StatementResult * list Event * DB :=
  match stmts with
  | [] => ([], [], db)
  | s :: rest =>
      match run s db with
      | Some (db', n) =>
          let '(results, events, final) := runEach (S i) rest db' in
          ({| position := i; succeeded := true; rowsAffected := n |}
             :: results,
           Exec i :: events, final)
      | None =>
          let '(results, events, final) := runEach (S i) rest db in
          ({| position := i; succeeded := false; rowsAffected := 0 |}
             :: results,
           Exec i :: events, final)
      end
  end.

(** The result, the database afterwards and what was done to the
    session. A rollback leaves the state the transaction began with. *)
Definition execute (stmts : list Stmt) (atomic : bool) (db : DB)
  : BatchResult * DB * list Event :=
  if atomic then
    match runAtomic 0 stmts db with
    | (results, events, Some db') =>
        ({| statements := results; overallSuccess := true |}, db',
         Begin :: events ++ [Commit])
    | (results, events, None) =>
        ({| statements := results; overallSuccess := false |}, db,
         Begin :: events ++ [Rollback])
    end
  else
    let '(results, events, db') := runEach 0 stmts db in
    ({| statements := results;
        overallSuccess := forallb succeeded results |}, db', events).

(** The state the statement at position [k] is run in when all
    statements before it succeed. *)
Fixpoint stateBefore (k : nat) (stmts : list Stmt) (db : DB) : option DB :=
  match k, stmts with
  | O, _ => Some db
  | S k', s :: rest =>
      match run s db with
      | Some (db', _) => stateBefore k' rest db'
      | None => None
      end
  | S _, [] => None
  end.

(** The statement at position [k] fails, those before it succeed. *)
Definition failsAt (k : nat) (stmts : list Stmt) (db : DB) : Prop :=
  ∃ s dbk, stmts !! k = Some s ∧ stateBefore k stmts db = Some dbk
           ∧ run s dbk = None.

End engine.

End BatchEngine.

(** * The row mutation reconciler

    Modelled from the spec: [dbService.updateRow] and [pgService.updateRow]
    are called by [handleUpdateRow] but are not part of the sources at hand.
    The spec's [update(table, before, after)] builds an UPDATE statement
    whose SET clause includes only the columns whose value differs between
    [before] and [after], and whose WHERE clause matches every column of
    [before] by value, with a NULL-safe comparison for null-valued columns. *)
Module Reconciler.

(** Values keep their backend typing; a real is carried by its bit
    pattern. *)
Inductive Value :=
| VNull
| VInt (n : Z)
| VReal (bits : Z)
| VText (s : string)
| VBool (b : bool)
| VBlob (bytes : list Z).

#[global] Instance Value_eq_dec : EqDecision Value.
Proof. solve_decision. Defined.

(** An ordered mapping from column name to value. *)
Definition RowSnapshot : Type := list (string * Value).

Fixpoint get (column : string) (row : RowSnapshot) : option Value :=
  match row with
  | [] => None
  | (c, v) :: rest => if decide (c = column) then Some v else get column rest
  end.

Inductive Condition :=
| Equals (column : string) (v : Value)
| IsNull (column : string).

Record UpdateStatement := {
  table : string;
  setClause : list (string * Value);
  whereClause : list Condition;
}.

Definition differs (before : RowSnapshot) (assignment : string * Value)
  : bool :=
  negb (bool_decide (get (fst assignment) before = Some (snd assignment))).

Definition conditionOf (entry : string * Value) : Condition :=
  match snd entry with
  | VNull => IsNull (fst entry)
  | v => Equals (fst entry) v
  end.

Definition update (tableName : string) (before after : RowSnapshot)
  : UpdateStatement :=
  {| table := tableName;
     setClause := filter (λ a, differs before a = true) after;
     whereClause := conditionOf <$> before |}.

(** SQL truth of one condition on a stored row: [column = v] holds for a
    stored non-null value equal to [v]; [column IS NULL] for a stored
    null. *)
Definition holds (row : RowSnapshot) (c : Condition) : bool :=
  match c with
  | Equals column v =>
      match get column row with
      | Some VNull | None => false
      | Some w => bool_decide (w = v)
      end
  | IsNull column => bool_decide (get column row = Some VNull)
  end.

Definition selects (stmt : UpdateStatement) (row : RowSnapshot) : bool :=
  forallb (holds row) (whereClause stmt).

Fixpoint assign (column : string) (v : Value) (row : RowSnapshot)
  : RowSnapshot :=
  match row with
  | [] => []
  | (c, w) :: rest =>
      if decide (c = column) then (c, v) :: assign column v rest
      else (c, w) :: assign column v rest
  end.

Definition applySet (stmt : UpdateStatement) (row : RowSnapshot)
  : RowSnapshot :=
  foldl (λ r a, assign (fst a) (snd a) r) row (setClause stmt).

(** The statement run on the stored rows, and the affected count. *)
Definition apply (stmt : UpdateStatement) (rows : list RowSnapshot)
  : list RowSnapshot * nat :=
  ((λ row, if selects stmt row then applySet stmt row else row) <$> rows,
   length (filter (λ row, selects stmt row = true) rows)).

(** The stored row still carries every value of the snapshot. *)
Definition matchesSnapshot (before row : RowSnapshot) : Prop :=
  ∀ column v, (column, v) ∈ before → get column row = Some v.

End Reconciler.

(** * Further notions about the layout *)

(** Rows are numbered from the top; a higher level comes first. *)
Definition above (a b : nat) : Prop := b < a.



(** The row a position lies in. *)
Definition rowOf (p : Position) : nat :=
  Z.to_nat (pos_y p / (nodeHeight + verticalGap)).

(** The rank of a position inside a row of [groupSize] tables. *)
Definition rankOf (groupSize : nat) (p : Position) : nat :=
  Z.to_nat ((pos_x p - pos_x (nodePosition groupSize 0 0))
            / (nodeWidth + horizontalGap)).

(** * The [TableNode] component ([src/unnamed/part_003])

    Of the rendering, the handles a node offers to edges (lines 84-147): a
    target handle on every column with [pk === 1], a source handle on every
    column that is the [from] of one of the node's foreign keys. *)
Module TableNode.

Definition fkColumnNames (foreignKeys : list ForeignKeyInfo) : gset string :=
  list_to_set (fk_from <$> foreignKeys).

Definition targetHandleId (name column : string) : string :=
  name +:+ "-" +:+ column +:+ "-target".

Definition sourceHandleId (name column : string) : string :=
  name +:+ "-" +:+ column +:+ "-source".

Definition columnHandles (data : First.TableNodeData) (column : ColumnInfo)
  : list string :=
  (if bool_decide (col_pk column = 1%Z)
   then [targetHandleId (First.data_name data) (col_name column)] else [])
  ++ (if decide (col_name column ∈ fkColumnNames (First.data_foreignKeys data))
      then [sourceHandleId (First.data_name data) (col_name column)] else []).

Definition handles (data : First.TableNodeData) : list string :=
  First.data_columns data ≫= columnHandles data.

(** The icon shown for a column ([getColumnIcon], lines 14-46). *)
Inductive Icon :=
| KeyIcon (withLink : bool)
| LinkIcon
| HashIcon
| DiamondIcon
| CircleIcon.

Definition getColumnIcon (column : ColumnInfo)
    (foreignKeys : list ForeignKeyInfo) (indexes : list IndexInfo) : Icon :=
  let isPrimaryKey := bool_decide (col_pk column = 1%Z) in
  let isForeignKey :=
    existsb (λ fk, bool_decide (fk_from fk = col_name column)) foreignKeys in
  let isUnique :=
    existsb (λ idx, idx_unique idx
                    && bool_decide (col_name column ∈ idx_columns idx)
                    && (length (idx_columns idx) =? 1)) indexes in
  let isNullable := bool_decide (col_notnull column = 0%Z) in
  if isPrimaryKey then KeyIcon isForeignKey
  else if isForeignKey then LinkIcon
  else if isUnique then HashIcon
  else if isNullable then DiamondIcon
  else CircleIcon.

End TableNode.

(** * States of the schema visualizer *)



(** Whether an icon carries the link mark. *)
Definition hasLink (icon : TableNode.Icon) : bool :=
  match icon with
  | TableNode.KeyIcon withLink => withLink
  | TableNode.LinkIcon => true
  | _ => false
  end.

Definition isKey (icon : TableNode.Icon) : bool :=
  match icon with TableNode.KeyIcon _ => true | _ => false end.

(** * Further parts of [DatabaseView] *)

Definition isPostgresCall (c : DatabaseView.Call) : bool :=
  match c with
  | DatabaseView.PgDeleteRows _ _ _ | DatabaseView.PgUpdateRow _ _ _ => true
  | _ => false
  end.

(** A value a database cell can hold: anything but an array. *)
Definition scalar (v : JSVal) : bool :=
  match v with JArr _ => false | _ => true end.

(** [path.split(/[/\\]/)]: the pieces between separators, empty pieces
    included; there is always at least one piece. *)
Definition isSeparator (c : Ascii.ascii) : bool :=
  bool_decide (String c "" = "/") || bool_decide (String c "" = "\").

Fixpoint splitPath (path : string) : list string :=
  match path with
  | EmptyString => [""]
  | String c rest =>
      if isSeparator c then "" :: splitPath rest
      else match splitPath rest with
           | piece :: pieces => String c piece :: pieces
           | [] => [String c ""]
           end
  end.

(** [x || fallback] on strings. *)
Definition orElse (x : option string) (fallback : string) : string :=
  match x with
  | Some s => if bool_decide (s = "") then fallback else s
  | None => fallback
  end.

(** [databaseName] (lines 75-78 of part_001): [database] is
    [pgService.currentConfig?.database], [currentFilePath] is
    [dbService.currentFilePath]. *)
Definition databaseName (isPostgresActive : bool) (database : option string)
    (currentFilePath : option string) : string :=
  if isPostgresActive then orElse database "PostgreSQL"
  else orElse (path ← currentFilePath; last (splitPath path)) "SQLite".

Fixpoint hasSeparator (s : string) : bool :=
  match s with
  | EmptyString => false
  | String c rest => isSeparator c || hasSeparator rest
  end.

(** The foreign keys of the tables named [k] that point to [ref]. *)
Definition references (tables : list SchemaTable) (k ref : string) : Prop :=
  ∃ t fk, t ∈ tables ∧ name t = k ∧ fk ∈ foreignKeys t ∧ fk_table fk = ref.

(** ** [handleSchemaExport] (lines 138-160 of part_001) *)

Inductive ImageFormat := Png | Svg.

(** [format.toUpperCase()] *)
Definition formatUpper (format : ImageFormat) : string :=
  match format with Png => "PNG" | Svg => "SVG" end.

Inductive ExportCall :=
| ExportSchema (format : ImageFormat)
| ElectronExport (dataUrl : string) (format : ImageFormat)
| ExportToast (title description : string) (destructive : bool).

Definition isExportToast (c : ExportCall) : bool :=
  match c with ExportToast _ _ _ => true | _ => false end.

Definition exportFailed : ExportCall :=
  ExportToast "Error" "Failed to export schema" true.

(** [visualizer] is [schemaVisualizerRef.current]: its [exportSchema]
    answers a data URL or [null], or throws (outer [None]). [electron] is
    [window.electron]: its [exportDatabase] answers a result or throws. *)
Definition handleSchemaExport
    (visualizer : option (ImageFormat → option (option string)))
    (electron : option (string → ImageFormat
                        → option DatabaseView.SaveResult))
    (format : ImageFormat) : list ExportCall :=
  match visualizer with
  | None => []
  | Some exportSchema =>
      ExportSchema format ::
      match exportSchema format with
      | None => [exportFailed]
      | Some dataUrl =>
          match dataUrl with
          | Some url =>
              if bool_decide (url = "") then
                [ExportToast "Error" "Failed to generate schema image" true]
              else
                match electron with
                | None => []
                | Some exportDatabase =>
                    ElectronExport url format ::
                    match exportDatabase url format with
                    | None => [exportFailed]
                    | Some result =>
                        if DatabaseView.success result then
                          [ExportToast "Success"
                             ("Schema exported as " +:+ formatUpper format)
                             false]
                        else if bool_decide (DatabaseView.error result
                                             = Some "Export cancelled")
                        then []
                        else [ExportToast "Error"
                                (orElse (DatabaseView.error result)
                                   "Failed to export schema") true]
                    end
                end
          | None =>
              [ExportToast "Error" "Failed to generate schema image" true]
          end
      end
  end.

(** * Concrete inputs used below *)

(** [{type: 'delete', rowIds: ['1', '2'], primaryKeyColumn: 'id'}] *)
Definition usersDelete : RowData :=
  {[ "type" := JStr "delete";
     "rowIds" := JArr [JStr "1"; JStr "2"];
     "primaryKeyColumn" := JStr "id" ]}.

(** Services that reject every call. *)
Definition failingServices : DatabaseView.Services :=
  {| DatabaseView.pg_deleteRows := λ _ _ _, None;
     DatabaseView.pg_updateRow := λ _ _ _, None;
     DatabaseView.db_executeBatchOperations := λ _, None;
     DatabaseView.db_updateRow := λ _ _ _, None |}.

(** A row edit [{id: 1, name: 'Ann'}]. *)
Definition annRow : RowData := {[ "id" := JNum 1; "name" := JStr "Ann" ]}.

(** Accessors of a catalog without columns, keys or indexes. *)
Definition bareAccessors : SchemaVisualizer.Accessors :=
  {| SchemaVisualizer.getTableColumns := λ _, [];
     SchemaVisualizer.getForeignKeys := λ _, [];
     SchemaVisualizer.getIndexes := λ _, [] |}.

Definition usersOrders : list TableInfo :=
  [ {| ti_name := "users" |}; {| ti_name := "orders" |} ].

Definition usersInvoices : list TableInfo :=
  [ {| ti_name := "users" |}; {| ti_name := "invoices" |} ].

(** An embedded session with a file and no pending change. *)
Definition cleanSession : EmbeddedSession.Session :=
  {| EmbeddedSession.currentFilePath := Some "/data/app.db";
     EmbeddedSession.image := [83; 81; 76]%Z;
     EmbeddedSession.hasChanges := false |}.

(** A toy backend: the database is a counter, a statement adds to it or is
    rejected. *)
Definition counterRun (stmt : option Z) (db : Z) : option (Z * nat) :=
  match stmt with
  | Some d => Some ((db + d)%Z, 1)
  | None => None
  end.

Definition annBefore : Reconciler.RowSnapshot :=
  [ ("id", Reconciler.VInt 1); ("name", Reconciler.VText "Ann");
    ("email", Reconciler.VNull) ].

Definition annAfter : Reconciler.RowSnapshot :=
  [ ("id", Reconciler.VInt 1); ("name", Reconciler.VText "Anna");
    ("email", Reconciler.VNull) ].


(** Three tables: [a] and [b] reference each other, [b] also references
    itself, [c] stands alone. *)
Definition tbl (n : string) (fks : list (string * string * string))
  : SchemaTable :=
  {| name := n; columns := [];
     foreignKeys :=
       (λ '(f, t, c), {| fk_from := f; fk_table := t; fk_to := c |}) <$> fks;
     indexes := [] |}.

Definition cyclicTables : list SchemaTable :=
  [ tbl "a" [("b_id", "b", "id")];
    tbl "b" [("a_id", "a", "id"); ("b_id", "b", "id")];
    tbl "c" [] ].

(** [orders(id PRIMARY KEY, user_id REFERENCES users(id))] and
    [users(id PRIMARY KEY, email)]. *)
Definition ordersTable : SchemaTable :=
  {| name := "orders";
     columns := [ {| col_name := "id"; col_type := "INTEGER";
                     col_notnull := 1; col_pk := 1 |};
                  {| col_name := "user_id"; col_type := "INTEGER";
                     col_notnull := 1; col_pk := 0 |} ];
     foreignKeys := [ {| fk_from := "user_id"; fk_table := "users";
                         fk_to := "id" |} ];
     indexes := [] |}.

Definition usersTable : SchemaTable :=
  {| name := "users";
     columns := [ {| col_name := "id"; col_type := "INTEGER";
                     col_notnull := 1; col_pk := 1 |};
                  {| col_name := "email"; col_type := "TEXT";
                     col_notnull := 0; col_pk := 0 |} ];
     foreignKeys := [];
     indexes := [] |}.

(** [{type: 'delete', rowIds: [], primaryKeyColumn: 'id'}] *)
Definition emptyDelete : RowData :=
  {[ "type" := JStr "delete"; "rowIds" := JArr [];
     "primaryKeyColumn" := JStr "id" ]}.

(** An [electron] bridge whose [saveDatabase] succeeds. *)
Definition savingElectron
  : option (string → list Z → option DatabaseView.SaveResult) :=
  Some (λ _ _, Some {| DatabaseView.success := true;
                       DatabaseView.error := None |}).
(** ** Facts about the containers *)

Lemma forEachM_inv {A S : Type} (body : A → S → option S)
    (Inv : list A → S → Prop) (l : list A) :
  (∀ pre x s, x ∈ l → Inv pre s →
     ∃ s', body x s = Some s' ∧ Inv (pre ++ [x]) s') →
  ∀ pre s, Inv pre s → ∃ s', forEachM body l s = Some s' ∧ Inv (pre ++ l) s'.
Proof.
  induction l as [|x l IH]; intros Hstep pre s Hinv; simpl.
  - exists s. by rewrite app_nil_r.
  - destruct (Hstep pre x s) as (s1 & -> & Hinv1); [left | done |].
    destruct (IH (λ pre' y s' Hy, Hstep pre' y s' (list_elem_of_further _ _ _ Hy))
                (pre ++ [x]) s1 Hinv1) as (s2 & Hrun & Hinv2).
    exists s2. by rewrite <- app_assoc in Hinv2.
Qed.


Lemma size_list_to_set_le (l : list string) :
  size (list_to_set (C := gset string) l) ≤ length l.
Proof.
  induction l as [|x l IH].
  - rewrite list_to_set_nil, size_empty. done.
  - rewrite list_to_set_cons, size_union_alt, size_singleton. simpl.
    assert (size (list_to_set (C := gset string) l ∖ {[x]})
            ≤ size (list_to_set (C := gset string) l))
      by (apply subseteq_size; set_solver).
    lia.
Qed.

(** ** The recursion of [calculateLevel] is bounded *)

Section level_recursion.
Variable relationships : gmap string (list string).
Variable U : gset string.
Hypothesis refs_closed :
  ∀ k refs ref, relationships !! k = Some refs → ref ∈ refs → ref ∈ U.


Lemma grows_refl st : visited st ⊆ U → grows U st st.
Proof. unfold grows. set_solver. Qed.

Lemma grows_trans st1 st2 st3 : grows U st1 st2 → grows U st2 st3 → grows U st1 st3.
Proof.
  intros (Ha1 & Hb1 & Hc1 & Hd1) (Ha2 & Hb2 & Hc2 & Hd2).
  split_and!; [by etrans | done | by etrans |].
  intros x [Hx3 Hx1]%elem_of_difference.
  destruct (decide (x ∈ visited st2)) as [Hx2|Hx2].
  - apply Hc2, Hd1. by apply elem_of_difference.
  - apply Hd2. by apply elem_of_difference.
Qed.

Lemma grows_setLevel tableName level st st2 :
  grows U (visit tableName st) st2 →
  grows U st (setLevel tableName level st2)
  ∧ tableName ∈ visited (setLevel tableName level st2).
Proof.
  intros (H1 & H2 & H3 & H4). simpl in *.
  assert (Hin : tableName ∈ visited st2)
    by (apply H1, elem_of_union_l; by apply elem_of_singleton).
  split; [|done]. unfold grows. simpl. rewrite dom_insert_L.
  split_and!; [|done| |].
  - intros x Hx. by apply H1, elem_of_union_r.
  - intros x Hx. by apply elem_of_union_r, H3.
  - intros x [Hx2 Hx]%elem_of_difference.
    destruct (decide (x = tableName)) as [->|Hne].
    + by apply elem_of_union_l, elem_of_singleton.
    + apply elem_of_union_r, H4, elem_of_difference. split; [done|].
      intros [Hs%elem_of_singleton|?]%elem_of_union; done.
Qed.

Lemma unvisited_visit tableName st :
  tableName ∈ U → tableName ∉ visited st →
  size (U ∖ visited (visit tableName st)) < size (U ∖ visited st).
Proof.
  intros HU Hnv. apply subset_size. simpl. set_solver.
Qed.

Lemma unvisited_grows st st' :
  grows U st st' → size (U ∖ visited st') ≤ size (U ∖ visited st).
Proof. intros (Hsub & _). apply subseteq_size. set_solver. Qed.

Lemma calculateLevel_total fuel :
  ∀ tableName currentLevel st,
    tableName ∈ U → visited st ⊆ U → size (U ∖ visited st) < fuel →
    ∃ st', First.calculateLevel fuel relationships tableName currentLevel st
             = Some (if decide (tableName ∈ visited st)
                     then default 0 (levels st !! tableName)
                     else currentLevel, st')
           ∧ grows U st st' ∧ tableName ∈ visited st'.
Proof.
  induction fuel as [|fuel IH]; intros tableName currentLevel st HU Hsub Hfuel;
    [lia|].
  simpl. destruct (decide (tableName ∈ visited st)) as [Hv|Hnv].
  { exists st. split_and!; [done | by apply grows_refl | done]. }
  pose proof (unvisited_visit tableName st HU Hnv) as Hlt.
  assert (Hsub1 : visited (visit tableName st) ⊆ U) by (simpl; set_solver).
  destruct (relationships !! tableName) as [refs|] eqn:Erefs.
  - assert (Hloop : ∀ refs' st1, (∀ ref, ref ∈ refs' → ref ∈ U) →
              grows U (visit tableName st) st1 →
              ∃ st2, forEachM
                (λ ref '(maxLevel, st),
                   if decide (ref ∈ visited st) then Some (maxLevel, st)
                   else
                     match First.calculateLevel fuel relationships ref
                             (currentLevel + 1) st with
                     | Some (refLevel, st') =>
                         Some (Nat.max maxLevel currentLevel, st')
                     | None => None
                     end) refs' (currentLevel, st1)
                = Some (currentLevel, st2) ∧ grows U (visit tableName st) st2).
    { induction refs' as [|ref refs' IHrefs]; intros st1 Hin Hg; simpl.
      - by exists st1.
      - destruct (decide (ref ∈ visited st1)) as [Hr|Hr].
        + apply IHrefs; [|done]. intros r Hr'. apply Hin. by right.
        + destruct (IH ref (currentLevel + 1) st1) as (st2 & Hcall & Hg2 & _).
          * apply Hin. by left.
          * apply Hg.
          * pose proof (unvisited_grows _ _ Hg). lia.
          * rewrite Hcall. rewrite Nat.max_id. apply IHrefs.
            -- intros r Hr'. apply Hin. by right.
            -- by eapply grows_trans. }
    destruct (Hloop refs (visit tableName st)) as (st2 & -> & Hg2).
    { intros ref Href. by eapply refs_closed. }
    { by apply grows_refl. }
    eexists. split; [done|]. by apply grows_setLevel.
  - eexists. split; [done|]. apply grows_setLevel. by apply grows_refl.
Qed.

End level_recursion.

(** ** The relationship graph only mentions known names *)


Lemma elem_of_Set_add ref x s : ref ∈ Set_add x s → ref = x ∨ ref ∈ s.
Proof.
  unfold Set_add. case_decide; [by right|].
  rewrite elem_of_app, list_elem_of_singleton. tauto.
Qed.

Lemma initRelationships_within T tables : refs_within T (initRelationships tables).
Proof.
  unfold initRelationships.
  assert (H : refs_within T (∅ : gmap string (list string))).
  { intros k refs ref Hk. by rewrite lookup_empty in Hk. }
  revert H. generalize (∅ : gmap string (list string)).
  induction tables as [|t tables IH]; intros m Hm; simpl; [done|].
  apply IH. intros k refs ref Hk Hin.
  destruct (decide (name t = k)) as [<-|Hne].
  - rewrite lookup_insert_eq in Hk. injection Hk as <-.
    by apply elem_of_nil in Hin.
  - rewrite lookup_insert_ne in Hk by done. by eapply Hm.
Qed.

Lemma alter_Set_add_within T x k m :
  x ∈ T → refs_within T m → refs_within T (alter (Set_add x) k m).
Proof.
  intros Hx Hm j refs ref Hj Hin.
  destruct (decide (k = j)) as [->|Hne].
  - rewrite lookup_alter_eq in Hj.
    destruct (m !! j) as [s|] eqn:Es; [|done]. injection Hj as <-.
    apply elem_of_Set_add in Hin as [->|Hin]; [done|]. by eapply Hm.
  - rewrite lookup_alter_ne in Hj by done. by eapply Hm.
Qed.

Lemma addForeignKeys_within T tables m :
  (∀ t fk, t ∈ tables → fk ∈ foreignKeys t → fk_table fk ∈ T) →
  refs_within T m → refs_within T (addForeignKeys tables m).
Proof.
  unfold addForeignKeys. revert m.
  induction tables as [|t tables IH]; intros m Hfk Hm; simpl; [done|].
  apply IH.
  - intros t' fk Ht'. apply Hfk. by right.
  - assert (Hfks : ∀ fk, fk ∈ foreignKeys t → fk_table fk ∈ T)
      by (intros fk; apply Hfk; by left).
    clear Hfk IH. revert m Hm.
    induction (foreignKeys t) as [|fk fks IHf]; intros m Hm; simpl; [done|].
    apply IHf.
    + intros fk' Hfk'. apply Hfks. by right.
    + apply alter_Set_add_within; [|done]. apply Hfks. by left.
Qed.


Lemma name_known tables t : t ∈ tables → name t ∈ knownNames tables.
Proof.
  intros Ht. unfold knownNames, allNames.
  rewrite elem_of_list_to_set, elem_of_app. left.
  by apply list_elem_of_fmap_2.
Qed.

Lemma fk_table_known tables t fk :
  t ∈ tables → fk ∈ foreignKeys t → fk_table fk ∈ knownNames tables.
Proof.
  intros Ht Hfk. unfold knownNames, allNames.
  rewrite elem_of_list_to_set, elem_of_app. right.
  apply list_elem_of_bind. exists t. split; [|done].
  by apply list_elem_of_fmap_2.
Qed.

Lemma buildRelationships_within tables :
  refs_within (knownNames tables) (buildRelationships tables).
Proof.
  apply addForeignKeys_within.
  - intros t fk. apply fk_table_known.
  - apply initRelationships_within.
Qed.

Lemma knownNames_size tables : size (knownNames tables) < levelFuel tables.
Proof.
  unfold levelFuel, knownNames.
  pose proof (size_list_to_set_le (allNames tables)). lia.
Qed.

(** ** Every table receives a level *)

Lemma assignLevels_total fuel tables :
  levelFuel tables ≤ fuel →
  ∃ lv, First.assignLevels fuel tables = Some lv
        ∧ ∀ t, t ∈ tables → is_Some (lv !! name t).
Proof.
  intros Hfuel. unfold First.assignLevels.
  set (rel := buildRelationships tables). set (U := knownNames tables).
  pose proof (buildRelationships_within tables) as Hrel. fold rel U in Hrel.
  pose proof (knownNames_size tables) as HU. fold U in HU.
  assert (Hcall : ∀ t st, t ∈ tables →
            visited st ⊆ U → visited st ⊆ dom (levels st) →
            ∃ st', snd <$> First.calculateLevel fuel rel (name t) 0 st = Some st'
                   ∧ visited st' ⊆ U ∧ visited st' ⊆ dom (levels st')
                   ∧ dom (levels st) ⊆ dom (levels st')
                   ∧ name t ∈ dom (levels st')).
  { intros t st Ht HsU Hdom.
    destruct (calculateLevel_total rel U Hrel fuel (name t) 0 st)
      as (st' & -> & (H1 & H2 & H3 & H4) & H5).
    - by apply name_known.
    - done.
    - assert (size (U ∖ visited st) ≤ size U) by (apply subseteq_size; set_solver).
      lia.
    - exists st'. simpl. split_and!; [done|done| |done|]; set_solver. }
  odestruct (forEachM_inv
    (λ table st,
       if decide (length <$> rel !! name table = Some 0)
       then snd <$> First.calculateLevel fuel rel (name table) 0 st
       else Some st)
    (λ _ st, visited st ⊆ U ∧ visited st ⊆ dom (levels st)) tables
    _ [] {| levels := ∅; visited := ∅ |} _) as (st1 & Hrun1 & HsU1 & Hdom1).
  { intros pre t st Ht (HsU & Hdom). case_decide.
    - destruct (Hcall t st Ht HsU Hdom) as (st' & -> & ? & ? & _). by exists st'.
    - by exists st. }
  { simpl. set_solver. }
  unfold First.startLeaves. rewrite Hrun1.
  odestruct (forEachM_inv
    (λ table st,
       if decide (is_Some (levels st !! name table)) then Some st
       else snd <$> First.calculateLevel fuel rel (name table) 0 st)
    (λ pre st, visited st ⊆ U ∧ visited st ⊆ dom (levels st)
               ∧ ∀ t, t ∈ pre → name t ∈ dom (levels st)) tables
    _ [] st1 _) as (st2 & Hrun2 & _ & _ & Hall).
  { intros pre t st Ht (HsU & Hdom & Hpre). case_decide as Hlv.
    - exists st. split_and!; [done..|].
      intros t' [Ht'| ->%list_elem_of_singleton]%elem_of_app; [by apply Hpre|].
      by apply elem_of_dom.
    - destruct (Hcall t st Ht HsU Hdom) as (st' & -> & ? & ? & Hgrow & Hin).
      exists st'. split_and!; [done..|].
      intros t' [Ht'| ->%list_elem_of_singleton]%elem_of_app; [|done].
      apply Hgrow. by apply Hpre. }
  { split_and!; [done..|]. intros t Ht. by apply elem_of_nil in Ht. }
  unfold First.startRemaining. rewrite Hrun2. exists (levels st2).
  split; [done|]. intros t Ht. apply elem_of_dom. by apply Hall.
Qed.

(** ** More nesting depth never changes a result *)



(** ** The level groups partition the tables *)


Lemma groupByLevel_snoc lv tables t :
  groupByLevel lv (tables ++ [t]) =
    let g := groupByLevel lv tables in
    let level := levelOf lv t in
    alter (λ group, group ++ [t]) level
      (match g !! level with Some _ => g | None => <[level := []]> g end).
Proof. unfold groupByLevel. by rewrite foldl_app. Qed.

Lemma groupByLevel_lookup lv tables level :
  groupByLevel lv tables !! level =
    if decide (groupOf lv level tables = []) then None
    else Some (groupOf lv level tables).
Proof.
  induction tables as [|t tables IH] using rev_ind.
  - unfold groupByLevel, groupOf. simpl. by rewrite lookup_empty.
  - rewrite groupByLevel_snoc. cbv zeta. unfold groupOf in *.
    rewrite filter_app, filter_cons, filter_nil.
    destruct (decide (levelOf lv t = level)) as [<-|Hne].
    + rewrite lookup_alter_eq. rewrite decide_False by (by destruct (filter _ tables)).
      rewrite IH. case_decide as Hg.
      * rewrite lookup_insert_eq, Hg. done.
      * by rewrite IH.
    + rewrite lookup_alter_ne by done. rewrite app_nil_r.
      destruct (groupByLevel lv tables !! levelOf lv t); [done|].
      by rewrite lookup_insert_ne.
Qed.

Lemma groupByLevel_default lv tables level :
  default [] (groupByLevel lv tables !! level) = groupOf lv level tables.
Proof. rewrite groupByLevel_lookup. by case_decide as H; [rewrite H|]. Qed.

Lemma groupByLevel_dom lv tables t :
  t ∈ tables → levelOf lv t ∈ dom (groupByLevel lv tables).
Proof.
  intros Ht. apply elem_of_dom. rewrite groupByLevel_lookup.
  rewrite decide_False; [done|]. intros Hnil.
  assert (t ∈ groupOf lv (levelOf lv t) tables) as Hin
    by (by apply list_elem_of_filter).
  rewrite Hnil in Hin. by apply elem_of_nil in Hin.
Qed.

Lemma bind_insert_one {A} (ks : list nat) (k0 : nat) (x : A)
    (F f : nat → list A) :
  NoDup ks → k0 ∈ ks →
  F k0 = x :: f k0 → (∀ k, k ≠ k0 → F k = f k) →
  ks ≫= F ≡ₚ x :: (ks ≫= f).
Proof.
  intros Hnd Hin HF0 HF. induction ks as [|k ks IH]; [by apply elem_of_nil in Hin|].
  apply NoDup_cons in Hnd as [Hk Hnd]. rewrite !bind_cons.
  destruct (decide (k = k0)) as [->|Hne].
  - rewrite HF0. simpl. f_equiv. f_equiv.
    assert (Hext : ∀ l : list nat, k0 ∉ l → l ≫= F = l ≫= f).
    { induction l as [|y l IHl]; intros Hl; [done|].
      rewrite !bind_cons, HF, IHl; set_solver. }
    by rewrite Hext.
  - rewrite (HF k Hne). rewrite IH; [|done|set_solver].
    by rewrite Permutation_middle.
Qed.

Lemma groups_partition lv (ks : list nat) tables :
  NoDup ks → (∀ t, t ∈ tables → levelOf lv t ∈ ks) →
  ks ≫= (λ level, groupOf lv level tables) ≡ₚ tables.
Proof.
  intros Hnd. induction tables as [|t tables IH]; intros Hall.
  - unfold groupOf. clear. induction ks as [|k ks IH]; [done|].
    by rewrite bind_cons, IH.
  - rewrite (bind_insert_one ks (levelOf lv t) t _
               (λ level, groupOf lv level tables)); [| done | | |].
    + f_equiv. apply IH. intros t' Ht'. apply Hall. by right.
    + apply Hall. by left.
    + unfold groupOf. by rewrite filter_cons, decide_True.
    + intros k Hk. unfold groupOf. by rewrite filter_cons, decide_False.
Qed.

Lemma sortedLevels_partition lv tables :
  sortedLevels (groupByLevel lv tables)
    ≫= (λ level, default [] (groupByLevel lv tables !! level)) ≡ₚ tables.
Proof.
  erewrite list_bind_ext; [|apply groupByLevel_default|done].
  apply groups_partition.
  - unfold sortedLevels. rewrite merge_sort_Permutation. apply NoDup_elements.
  - intros t Ht. unfold sortedLevels. rewrite merge_sort_Permutation.
    apply elem_of_elements. by apply groupByLevel_dom.
Qed.

(** ** Nodes and edges, read back *)

Lemma imap_mkNode_id {A N} (f : nat → SchemaTable → N) (l : list SchemaTable)
    (g : SchemaTable → A) (h : N → A) :
  (∀ i t, h (f i t) = g t) → h <$> imap f l = g <$> l.
Proof.
  revert f. induction l as [|t l IH]; intros f Hf; [done|].
  rewrite imap_cons, !fmap_cons, Hf. f_equal. apply IH. intros i t'. apply Hf.
Qed.

Lemma fmap_concat_imap {A B C} (F : nat → A → list B) (G : A → list C)
    (h : B → C) (ks : list A) :
  (∀ i k, h <$> F i k = G k) → h <$> concat (imap F ks) = ks ≫= G.
Proof.
  revert F. induction ks as [|k ks IH]; intros F HF; [done|].
  rewrite imap_cons. simpl. rewrite fmap_app, HF. f_equal.
  apply IH. intros i k'. apply HF.
Qed.

Lemma placeNodes_tables {A} (h : First.Node → A) (gt : SchemaTable → A) g :
  (∀ a b c t, h (First.mkNode a b c t) = gt t) →
  h <$> First.placeNodes g
  = gt <$> (sortedLevels g ≫= λ level, default [] (g !! level)).
Proof.
  intros Hh. unfold First.placeNodes.
  rewrite (fmap_concat_imap _ (λ level, gt <$> default [] (g !! level))).
  - induction (sortedLevels g) as [|k ks IH]; [done|].
    by rewrite !bind_cons, fmap_app, IH.
  - intros i k. apply imap_mkNode_id. intros j t. apply Hh.
Qed.

Lemma nodeTable_mkNode a b c t : nodeTable (First.mkNode a b c t) = t.
Proof. by destruct t. Qed.

Lemma nodes_Permutation lv tables :
  (λ n, (First.id n, nodeTable n))
    <$> First.nodes (First.calculateLayoutFrom lv tables)
    ≡ₚ (λ t, (name t, t)) <$> tables.
Proof.
  simpl. rewrite (placeNodes_tables _ (λ t, (name t, t))).
  - f_equiv. apply sortedLevels_partition.
  - intros a b c t. by rewrite nodeTable_mkNode.
Qed.

Lemma makeEdges_endpoints tables :
  (λ e, (source e, target e)) <$> First.makeEdges tables
  = tables ≫= λ t, (λ fk, (name t, fk_table fk)) <$> foreignKeys t.
Proof.
  unfold First.makeEdges. induction tables as [|t tables IH]; [done|].
  rewrite !bind_cons, fmap_app, IH. f_equal.
  generalize (foreignKeys t). intros fks.
  assert (H : ∀ f, (∀ i fk, (source (f i fk), target (f i fk)) = (name t, fk_table fk)) →
                (λ e, (source e, target e)) <$> imap f fks
                = (λ fk, (name t, fk_table fk)) <$> fks).
  { induction fks as [|fk fks IHf]; intros f Hf; [done|].
    rewrite imap_cons, !fmap_cons, Hf. f_equal. apply IHf. intros i fk'. apply Hf. }
  by apply H.
Qed.

Lemma elem_of_concat_2 {A} (x : A) (l : list A) (ls : list (list A)) :
  x ∈ l → l ∈ ls → x ∈ concat ls.
Proof.
  intros Hx Hl. induction ls as [|l' ls IH]; [by apply elem_of_nil in Hl|].
  simpl. apply elem_of_app. apply elem_of_cons in Hl as [<-|Hl]; auto.
Qed.

(** The node of a table sits in the row of its level and in the column of
    its rank inside the level. *)
Lemma placeNodes_elem g levelIndex level tableIndex t :
  sortedLevels g !! levelIndex = Some level →
  default [] (g !! level) !! tableIndex = Some t →
  First.mkNode (length (default [] (g !! level))) levelIndex tableIndex t
    ∈ First.placeNodes g.
Proof.
  intros Hlevel Ht. unfold First.placeNodes.
  apply (elem_of_concat_2 _
           (imap (First.mkNode (length (default [] (g !! level))) levelIndex)
                 (default [] (g !! level)))).
  - exact (elem_of_lookup_imap_2
             (First.mkNode (length (default [] (g !! level))) levelIndex)
             _ t tableIndex Ht).
  - exact (elem_of_lookup_imap_2
             (λ levelIndex level,
                imap (First.mkNode (length (default [] (g !! level))) levelIndex)
                     (default [] (g !! level)))
             _ level levelIndex Hlevel).
Qed.

Lemma table_placed lv tables t :
  t ∈ tables →
  ∃ levelIndex tableIndex,
    sortedLevels (groupByLevel lv tables) !! levelIndex = Some (levelOf lv t)
    ∧ groupOf lv (levelOf lv t) tables !! tableIndex = Some t
    ∧ First.mkNode (length (groupOf lv (levelOf lv t) tables))
        levelIndex tableIndex t
        ∈ First.nodes (First.calculateLayoutFrom lv tables).
Proof.
  intros Ht.
  assert (levelOf lv t ∈ sortedLevels (groupByLevel lv tables)) as Hin.
  { unfold sortedLevels. rewrite merge_sort_Permutation.
    apply elem_of_elements. by apply groupByLevel_dom. }
  apply list_elem_of_lookup in Hin as [levelIndex Hlevel].
  assert (t ∈ groupOf lv (levelOf lv t) tables) as Hg
    by (by apply list_elem_of_filter).
  apply list_elem_of_lookup in Hg as [tableIndex Htable].
  exists levelIndex, tableIndex. split_and!; [done..|].
  simpl. rewrite <- (groupByLevel_default lv tables (levelOf lv t)).
  apply placeNodes_elem; [done|]. by rewrite groupByLevel_default.
Qed.

(** ** Termination and coverage of the layout *)


(** Claim C9. [calculateLayout] returns a layout whose node ids are the
    table names of the input, each as often as it occurs in the input (the
    nodes are a rearrangement of the tables), every node carrying the data of
    its table, and whose edges are, in input order, one per foreign key of
    every table, from the owning table to the referenced table. *)
Theorem calculateLayout_nodes_edges (tables : list SchemaTable) :
  ∃ layout,
    First.calculateLayout tables = Some layout
    ∧ (λ n, (First.id n, nodeTable n)) <$> First.nodes layout
      ≡ₚ (λ t, (name t, t)) <$> tables
    ∧ length (First.nodes layout) = length tables
    ∧ (λ e, (source e, target e)) <$> First.edges layout
      = tables ≫= (λ t, (λ fk, (name t, fk_table fk)) <$> foreignKeys t)
    ∧ length (First.edges layout)
      = sum_list (length ∘ foreignKeys <$> tables).
Proof.
  destruct (assignLevels_total (levelFuel tables) tables) as (lv & Hlv & _);
    [done|].
  exists (First.calculateLayoutFrom lv tables).
  pose proof (nodes_Permutation lv tables) as Hperm.
  pose proof (makeEdges_endpoints tables) as Hedges.
  split_and!.
  - unfold First.calculateLayout, First.calculateLayoutWith. by rewrite Hlv.
  - done.
  - apply Permutation_length in Hperm. by rewrite !length_fmap in Hperm.
  - done.
  - simpl. apply (f_equal length) in Hedges. rewrite length_fmap in Hedges.
    rewrite Hedges. clear. induction tables as [|t tables IH]; [done|].
    rewrite bind_cons, length_app, length_fmap, IH. done.
Qed.

(** ** The two copies of [calculateLayout] *)

Lemma forEachM_ext {A S : Type} (body1 body2 : A → S → option S) (l : list A) :
  (∀ x s, body1 x s = body2 x s) →
  ∀ s, forEachM body1 l s = forEachM body2 l s.
Proof.
  intros Hext. induction l as [|x l IH]; intros s; simpl; [done|].
  rewrite Hext. destruct (body2 x s); [apply IH|done].
Qed.

Lemma calculateLevel_copies relationships fuel :
  ∀ tableName currentLevel st,
    Second.calculateLevel fuel relationships tableName currentLevel st
    = First.calculateLevel fuel relationships tableName currentLevel st.
Proof.
  induction fuel as [|fuel IH]; intros n l st; simpl; [done|].
  case_decide; [done|]. destruct (relationships !! n) as [refs|]; [|done].
  erewrite forEachM_ext; [done|].
  intros ref [m s]. simpl. case_decide; [done|]. rewrite IH.
  by destruct (First.calculateLevel fuel relationships ref (l + 1) s) as [[]|].
Qed.

Lemma assignLevels_copies fuel tables :
  Second.assignLevels fuel tables = First.assignLevels fuel tables.
Proof.
  unfold Second.assignLevels, First.assignLevels, Second.startLeaves,
    First.startLeaves, Second.startRemaining, First.startRemaining.
  erewrite forEachM_ext.
  2:{ intros t st. by rewrite calculateLevel_copies. }
  match goal with |- match ?x with _ => _ end = _ => destruct x as [st1|] end;
    [|done].
  f_equal. apply forEachM_ext. intros t st. by rewrite calculateLevel_copies.
Qed.

Lemma imap_fmap_agree {A B1 B2 C} (f1 : nat → A → B1) (f2 : nat → A → B2)
    (h1 : B1 → C) (h2 : B2 → C) (l : list A) :
  (∀ i x, h1 (f1 i x) = h2 (f2 i x)) → h1 <$> imap f1 l = h2 <$> imap f2 l.
Proof.
  revert f1 f2. induction l as [|x l IH]; intros f1 f2 H; [done|].
  rewrite !imap_cons, !fmap_cons, H. f_equal. apply IH. intros i y. apply H.
Qed.

Lemma concat_imap_fmap_agree {A B1 B2 C} (F1 : nat → A → list B1)
    (F2 : nat → A → list B2) (h1 : B1 → C) (h2 : B2 → C) (l : list A) :
  (∀ i x, h1 <$> F1 i x = h2 <$> F2 i x) →
  h1 <$> concat (imap F1 l) = h2 <$> concat (imap F2 l).
Proof.
  revert F1 F2. induction l as [|x l IH]; intros F1 F2 H; [done|].
  rewrite !imap_cons. simpl. rewrite !fmap_app, H. f_equal.
  apply IH. intros i y. apply H.
Qed.

Lemma placeNodes_copies {Callback} (onEditTable : option Callback) g :
  secondCore <$> Second.placeNodes onEditTable g
  = firstCore <$> First.placeNodes g.
Proof.
  unfold Second.placeNodes, First.placeNodes.
  apply concat_imap_fmap_agree. intros i level.
  by apply imap_fmap_agree.
Qed.

Lemma makeEdges_copies tables :
  edgeCore <$> Second.makeEdges tables = edgeCore <$> First.makeEdges tables.
Proof.
  unfold Second.makeEdges, First.makeEdges.
  induction tables as [|t tables IH]; [done|].
  rewrite !bind_cons, !fmap_app, IH. f_equal.
  rewrite <- (imap_const (Second.mkEdge t)).
  by apply imap_fmap_agree.
Qed.

(** Claim C10. For every list of tables, every callback and every bound on
    the nesting depth, the two copies of [calculateLayout] compute the same
    levels, and their layouts agree node by node on id, type, position and
    table data, and edge by edge on id, source, sourceHandle, target,
    targetHandle, type, animation, label, stroke width, font size and label
    background. What is left out of the comparison is the colour of the edge
    and of its label and the [onEdit] field, which the second copy sets to
    its extra argument. *)
Theorem calculateLayout_copies_agree {Callback : Type}
    (tables : list SchemaTable) (onEditTable : option Callback) (fuel : nat) :
  Second.assignLevels fuel tables = First.assignLevels fuel tables
  ∧ (λ l, secondCore <$> Second.nodes l)
      <$> Second.calculateLayoutWith fuel tables onEditTable
    = (λ l, firstCore <$> First.nodes l)
      <$> First.calculateLayoutWith fuel tables
  ∧ (λ l, edgeCore <$> Second.edges l)
      <$> Second.calculateLayoutWith fuel tables onEditTable
    = (λ l, edgeCore <$> First.edges l)
      <$> First.calculateLayoutWith fuel tables
  ∧ (λ l, Second.data_onEdit ∘ Second.data <$> Second.nodes l)
      <$> Second.calculateLayout tables onEditTable
    = Some (replicate (length tables) onEditTable).
Proof.
  unfold Second.calculateLayout, Second.calculateLayoutWith,
    First.calculateLayoutWith.
  rewrite !assignLevels_copies. split_and!; [done | | |].
  - destruct (First.assignLevels fuel tables) as [lv|]; [|done]. simpl.
    f_equal. apply placeNodes_copies.
  - destruct (First.assignLevels fuel tables) as [lv|]; [|done]. simpl.
    f_equal. apply makeEdges_copies.
  - destruct (assignLevels_total (levelFuel tables) tables) as (lv & -> & _);
      [done|].
    simpl. f_equal. unfold Second.placeNodes.
    rewrite (fmap_concat_imap _
               (λ level, const onEditTable
                           <$> default [] (groupByLevel lv tables !! level))).
    + rewrite <- (Permutation_length (sortedLevels_partition lv tables)).
      induction (sortedLevels (groupByLevel lv tables)) as [|k ks IH]; [done|].
      rewrite !bind_cons, length_app, replicate_add, IH. f_equal.
      by apply const_fmap.
    + intros i k. by apply imap_mkNode_id.
Qed.

(** * Row deletion and update requests *)

(** Claim C1, at the request [{type: 'delete', rowIds: ['1', '2'],
    primaryKeyColumn: 'id'}] on table [users]. With the networked backend
    active the identifiers reach [pgService.deleteRows] as the values they
    are. With the embedded backend active the only call made is
    [dbService.executeBatchOperations] with one SQL text in which every
    identifier has been written between single quotes; no call carries the
    identifiers as parameters. *)
Theorem handleUpdateRow_delete_interpolates (svc : DatabaseView.Services) :
  snd (DatabaseView.handleUpdateRow svc "users" true None usersDelete)
    !! 0 = Some (DatabaseView.PgDeleteRows "users" "id" [JStr "1"; JStr "2"])
  ∧ snd (DatabaseView.handleUpdateRow svc "users" false None usersDelete)
    = [DatabaseView.DbExecuteBatchOperations
         ["DELETE FROM users WHERE id IN ('1','2')"]]
  ∧ existsb (DatabaseView.idsAsParameters [JStr "1"; JStr "2"])
      (snd (DatabaseView.handleUpdateRow svc "users" false None usersDelete))
    = false.
Proof.
  split_and!.
  - unfold DatabaseView.handleUpdateRow.
    change (DatabaseView.isDeleteOperation usersDelete) with true.
    change (bool_decide ("users" = "")) with false. cbv iota.
    by destruct (DatabaseView.pg_deleteRows _ _ _ _).
  - reflexivity.
  - reflexivity.
Qed.

Lemma handleUpdateRow_no_table svc isPostgresActive oldRow newRow :
  DatabaseView.handleUpdateRow svc "" isPostgresActive oldRow newRow
  = (Some false, []).
Proof. reflexivity. Qed.

Lemma handleUpdateRow_no_snapshot svc selectedTable isPostgresActive newRow :
  DatabaseView.isDeleteOperation newRow = false →
  DatabaseView.handleUpdateRow svc selectedTable isPostgresActive None newRow
  = (Some false, []).
Proof.
  intros Hdel. unfold DatabaseView.handleUpdateRow. rewrite Hdel.
  by repeat case_match.
Qed.

(** Claim C8. When no table is selected, or when the request is not a delete
    operation and the prior-row snapshot is null, [handleUpdateRow] resolves
    to [false] and makes no call at all: nothing is sent to [pgService] or
    [dbService], and no toast is shown. *)
Theorem handleUpdateRow_guards (svc : DatabaseView.Services)
    (selectedTable : string) (isPostgresActive : bool)
    (oldRow : option RowData) (newRow : RowData) :
  selectedTable = ""
  ∨ (DatabaseView.isDeleteOperation newRow = false ∧ oldRow = None) →
  DatabaseView.handleUpdateRow svc selectedTable isPostgresActive oldRow newRow
  = (Some false, []).
Proof.
  intros [-> | [Hdel ->]].
  - apply handleUpdateRow_no_table.
  - by apply handleUpdateRow_no_snapshot.
Qed.

Lemma handleUpdateRow_guards_witness :
  ("users" = ""
   ∨ (DatabaseView.isDeleteOperation annRow = false
      ∧ (None : option RowData) = None))
  ∧ DatabaseView.handleUpdateRow failingServices "users" false None annRow
    = (Some false, []).
Proof.
  split.
  - right. split; reflexivity.
  - apply (handleUpdateRow_guards failingServices "users" false None annRow).
    right. split; reflexivity.
Defined.

(** * Backend selection *)

(** Claim C4. In every render one backend is the live one, the networked
    one when a PostgreSQL connection is active and the embedded one
    otherwise: the table list, the three stable accessors and the table
    loader all take their answer from that backend alone, the connection
    type shown is that backend, and the two activity flags are never both
    set. *)
Theorem accessors_follow_live_backend (h : DatabaseView.Hooks) :
  let v := DatabaseView.render h in
  let live := DatabaseView.liveBackend v in
  live = (if DatabaseView.isConnected h
          then DatabaseView.Postgres else DatabaseView.Sqlite)
  ∧ DatabaseView.connectionType v = live
  ∧ DatabaseView.isPostgresActive v && DatabaseView.isSqliteActive v = false
  ∧ DatabaseView.tables v = DatabaseView.tablesOf h live
  ∧ ∀ tableName,
      DatabaseView.getTableColumnsStable v tableName
      = DatabaseView.getTableColumns (DatabaseView.funcsOf h live) tableName
      ∧ DatabaseView.getForeignKeysStable v tableName
        = DatabaseView.getForeignKeys (DatabaseView.funcsOf h live) tableName
      ∧ DatabaseView.getIndexesStable v tableName
        = DatabaseView.getIndexes (DatabaseView.funcsOf h live) tableName
      ∧ DatabaseView.loadTableData v tableName
        = (DatabaseView.getTableColumns (DatabaseView.funcsOf h live) tableName,
           DatabaseView.getTableData (DatabaseView.funcsOf h live) tableName).
Proof.
  destruct h as [ld lg st sf [] cg pt pf]; cbn; split_and!; try done;
    by destruct ld.
Qed.

(** * Saving an embedded database *)

(** Claim C5. On an embedded session the export hands back nothing exactly
    when the session has no changes; this is a value, not an exception, and
    on it the save path stops after one toast: the only calls made are the
    export itself and the toast, so nothing is written to the database file
    and the time of the last save is not touched. *)
Theorem save_without_changes (s : EmbeddedSession.Session)
    (electron : option (string → list Z → option DatabaseView.SaveResult)) :
  (EmbeddedSession.exportDatabase s = None
   ↔ EmbeddedSession.hasChanges s = false)
  ∧ (EmbeddedSession.exportDatabase s = None →
     EmbeddedSession.save s electron
     = [DatabaseView.DbExportDatabase;
        DatabaseView.Toast "Error" "No database changes to save" true]
     ∧ existsb DatabaseView.isWrite (EmbeddedSession.save s electron) = false).
Proof.
  unfold EmbeddedSession.save, EmbeddedSession.exportDatabase.
  destruct (EmbeddedSession.hasChanges s); split; done.
Qed.

Lemma save_without_changes_witness :
  EmbeddedSession.exportDatabase cleanSession = None
  ∧ EmbeddedSession.save cleanSession None
    = [DatabaseView.DbExportDatabase;
       DatabaseView.Toast "Error" "No database changes to save" true]
  ∧ existsb DatabaseView.isWrite (EmbeddedSession.save cleanSession None)
    = false.
Proof.
  split; [reflexivity|].
  apply (proj2 (save_without_changes cleanSession None)). reflexivity.
Defined.

(** * The cached layout of the schema visualizer *)

(** Claim C2, at a refresh that replaces [orders] by [invoices]. The table
    key changes, so the load effect runs again, but its guard only compares
    the number of tables: the state, with the schema data and nodes of
    [users] and [orders], is left as it was, and [invoices] gets no node. *)
Theorem layout_stale_after_rename :
  let st := SchemaVisualizer.mount bareAccessors usersOrders in
  let st' := SchemaVisualizer.update bareAccessors usersOrders usersInvoices st in
  SchemaVisualizer.tableKey usersOrders ≠ SchemaVisualizer.tableKey usersInvoices
  ∧ st' = st
  ∧ name <$> SchemaVisualizer.schemaData st' = ["users"; "orders"]
  ∧ First.id <$> SchemaVisualizer.nodes st' = ["users"; "orders"].
Proof. cbv zeta. split_and!; [by vm_compute | by vm_compute..]. Qed.

(** * Atomic batches *)

Section atomic_batch.
Context {DB Stmt : Type}.
Variable run : Stmt → DB → option (DB * nat).

Lemma runAtomic_failsAt i k stmts db s dbk :
  stmts !! k = Some s →
  BatchEngine.stateBefore run k stmts db = Some dbk →
  run s dbk = None →
  ∃ results,
    BatchEngine.runAtomic run i stmts db
    = (results, BatchEngine.Exec <$> seq i (S k), None)
    ∧ length results = S k.
Proof.
  revert i stmts db. induction k as [|k IH]; intros i stmts db Hs Hbefore Hrun.
  - destruct stmts as [|s0 rest]; [done|]. simpl in *. simplify_eq.
    rewrite Hrun. by eexists.
  - destruct stmts as [|s0 rest]; [done|]. simpl in *.
    destruct (run s0 db) as [[db' n]|]; [|done].
    destruct (IH (S i) rest db' Hs Hbefore Hrun) as (results & -> & Hlen).
    eexists. split; [done|]. simpl. by rewrite Hlen.
Qed.

End atomic_batch.

(** Claim C6. When a script is executed in atomic mode and the statement at
    position [k] fails after those before it succeeded, what is done to the
    session is: begin a transaction, execute the statements at positions
    [0] to [k] in that order, roll back. No statement at a later position is
    executed, the batch reports failure with one result per executed
    statement, and the database read afterwards is the one the batch started
    from. *)
Theorem atomic_batch_rolls_back {DB Stmt : Type}
    (run : Stmt → DB → option (DB * nat))
    (stmts : list Stmt) (db : DB) (k : nat) :
  BatchEngine.failsAt run k stmts db →
  ∃ result events,
    BatchEngine.execute run stmts true db = (result, db, events)
    ∧ events = BatchEngine.Begin :: (BatchEngine.Exec <$> seq 0 (S k))
               ++ [BatchEngine.Rollback]
    ∧ BatchEngine.overallSuccess result = false
    ∧ length (BatchEngine.statements result) = S k
    ∧ ∀ j, k < j → BatchEngine.Exec j ∉ events.
Proof.
  intros (s & dbk & Hs & Hbefore & Hrun).
  destruct (runAtomic_failsAt run 0 k stmts db s dbk Hs Hbefore Hrun)
    as (results & Hatomic & Hlen).
  unfold BatchEngine.execute. rewrite Hatomic.
  eexists _, _. split_and!; [done..|].
  intros j Hj Hin. apply elem_of_cons in Hin as [?|Hin]; [done|].
  apply elem_of_app in Hin as [Hin|Hin].
  - apply list_elem_of_fmap in Hin as (i & [= ->] & Hi).
    apply elem_of_seq in Hi. lia.
  - by apply list_elem_of_singleton in Hin.
Qed.

Lemma atomic_batch_rolls_back_witness :
  BatchEngine.failsAt counterRun 1 [Some 5%Z; None; Some 7%Z] 10%Z
  ∧ ∃ result events,
      BatchEngine.execute counterRun [Some 5%Z; None; Some 7%Z] true 10%Z
      = (result, 10%Z, events)
      ∧ events = BatchEngine.Begin :: (BatchEngine.Exec <$> seq 0 2)
                 ++ [BatchEngine.Rollback]
      ∧ BatchEngine.overallSuccess result = false
      ∧ length (BatchEngine.statements result) = 2
      ∧ ∀ j, 1 < j → BatchEngine.Exec j ∉ events.
Proof.
  assert (H : BatchEngine.failsAt counterRun 1 [Some 5%Z; None; Some 7%Z] 10%Z).
  { exists None, 15%Z. split_and!; reflexivity. }
  split; [exact H|].
  exact (atomic_batch_rolls_back counterRun [Some 5%Z; None; Some 7%Z] 10%Z 1 H).
Defined.

(** * Row updates *)

Lemma get_elem_of column v row :
  Reconciler.get column row = Some v → (column, v) ∈ row.
Proof.
  induction row as [|[c w] row IH]; simpl; [done|].
  case_decide as Hc; [intros [= ->]; subst; left | right; auto].
Qed.

Lemma holds_conditionOf row entry :
  Reconciler.holds row (Reconciler.conditionOf entry) = true
  ↔ Reconciler.get (fst entry) row = Some (snd entry).
Proof.
  destruct entry as [c v]. unfold Reconciler.conditionOf. simpl.
  destruct v; simpl; rewrite ?bool_decide_eq_true; try done;
    (destruct (Reconciler.get c row) as [[]|]; simpl;
     rewrite ?bool_decide_eq_true; split; intros; simplify_eq; done).
Qed.

Lemma selects_update tableName before after row :
  Reconciler.selects (Reconciler.update tableName before after) row = true
  ↔ Reconciler.matchesSnapshot before row.
Proof.
  unfold Reconciler.selects, Reconciler.matchesSnapshot. simpl.
  rewrite forallb_forall. setoid_rewrite <- list_elem_of_In. split.
  - intros H c v Hin.
    apply (holds_conditionOf row (c, v)). apply H.
    by apply (list_elem_of_fmap_2 Reconciler.conditionOf _ (c, v)).
  - intros H cond Hin. apply list_elem_of_fmap in Hin as ([c v] & -> & Hin).
    apply holds_conditionOf. by apply H.
Qed.

(** Claim C7. The statement built by [update table before after] sets
    exactly the entries of [after] whose value is not the one [before] holds
    for that column; its WHERE clause has one condition per column of
    [before], [IS NULL] for a null value and equality otherwise, and selects
    a stored row exactly when that row still carries every value of
    [before]. Run on any stored rows, it leaves every row that no longer
    carries the snapshot as it is. *)
Theorem update_matches_snapshot (tableName : string)
    (before after : Reconciler.RowSnapshot) :
  let stmt := Reconciler.update tableName before after in
  (∀ column v,
     (column, v) ∈ Reconciler.setClause stmt
     ↔ (column, v) ∈ after ∧ Reconciler.get column before ≠ Some v)
  ∧ Reconciler.whereClause stmt
    = (λ entry,
         if decide (snd entry = Reconciler.VNull)
         then Reconciler.IsNull (fst entry)
         else Reconciler.Equals (fst entry) (snd entry)) <$> before
  ∧ (∀ row, Reconciler.selects stmt row = true
            ↔ Reconciler.matchesSnapshot before row)
  ∧ ∀ rows i row,
      rows !! i = Some row → ¬ Reconciler.matchesSnapshot before row →
      fst (Reconciler.apply stmt rows) !! i = Some row.
Proof.
  cbv zeta. split_and!.
  - intros c v. simpl. rewrite list_elem_of_filter.
    unfold Reconciler.differs. simpl.
    rewrite negb_true_iff, bool_decide_eq_false. tauto.
  - simpl. apply list_fmap_ext. intros _ [c v] _.
    unfold Reconciler.conditionOf. simpl. by destruct v.
  - intros row. apply selects_update.
  - intros rows i row Hi Hno. unfold Reconciler.apply. cbn [fst].
    rewrite list_lookup_fmap, Hi. simpl.
    destruct (Reconciler.selects _ row) eqn:Hsel; [|done].
    by apply selects_update in Hsel.
Qed.

(** * Further properties of the layout *)






Lemma initRelationships_lookup tables n :
  n ∈ name <$> tables → initRelationships tables !! n = Some [].
Proof.
  unfold initRelationships. intros Hn.
  assert (H : ∀ m0 : gmap string (list string),
            n ∈ name <$> tables ∨ m0 !! n = Some [] →
            foldl (λ m table, <[name table := []]> m) m0 tables !! n = Some []).
  { clear Hn. induction tables as [|t tables IH]; intros m0 Hor; simpl.
    - destruct Hor as [Hin|Hm]; [by apply elem_of_nil in Hin|done].
    - apply IH. destruct (decide (n = name t)) as [->|Hne].
      + right. apply lookup_insert_eq.
      + rewrite lookup_insert_ne by done.
        destruct Hor as [Hin|Hm]; [|by right].
        rewrite fmap_cons in Hin. apply elem_of_cons in Hin as [?|?]; [done|by left]. }
  apply H. by left.
Qed.







(** ** Rows *)

#[local] Instance descending_trans : Transitive descending.
Proof. intros a b c. unfold descending. lia. Qed.

Lemma StronglySorted_above (l : list nat) :
  StronglySorted descending l → NoDup l → StronglySorted above l.
Proof.
  induction 1 as [|x l Hl IH Hx]; intros Hnd; constructor.
  - apply IH. by apply NoDup_cons in Hnd as [_ ?].
  - apply NoDup_cons in Hnd as [Hnotin _].
    rewrite Forall_forall in Hx |- *. intros y Hy.
    specialize (Hx y Hy). unfold descending in Hx. unfold above.
    assert (y ≠ x) by (intros ->; done). lia.
Qed.

Lemma sortedLevels_above g : StronglySorted above (sortedLevels g).
Proof.
  apply StronglySorted_above.
  - apply StronglySorted_merge_sort; apply _.
  - unfold sortedLevels. rewrite merge_sort_Permutation. apply NoDup_elements.
Qed.

Lemma sortedLevels_elem lv tables level :
  level ∈ sortedLevels (groupByLevel lv tables)
  ↔ ∃ t, t ∈ tables ∧ levelOf lv t = level.
Proof.
  unfold sortedLevels. rewrite merge_sort_Permutation, elem_of_elements,
    elem_of_dom, groupByLevel_lookup.
  split.
  - case_decide as Hnil; [by intros [? ?]|]. intros _.
    destruct (groupOf lv level tables) as [|t rest] eqn:Eg; [done|].
    assert (Hin : t ∈ groupOf lv level tables) by (rewrite Eg; left).
    apply list_elem_of_filter in Hin as [? ?]. by exists t.
  - intros (t & Ht & Hl). rewrite decide_False; [done|]. intros Hnil.
    assert (Hin : t ∈ groupOf lv level tables)
      by (by apply list_elem_of_filter).
    rewrite Hnil in Hin. by apply elem_of_nil in Hin.
Qed.

Lemma StronglySorted_index (l : list nat) i j a b :
  StronglySorted above l → l !! i = Some a → l !! j = Some b → i < j → b < a.
Proof.
  intros Hs. revert i j. induction Hs as [|x l Hl IH Hx]; intros i j Hi Hj Hlt.
  { by rewrite lookup_nil in Hi. }
  destruct j as [|j]; [lia|]. simpl in Hj. destruct i as [|i]; simpl in Hi.
  - injection Hi as <-. rewrite Forall_forall in Hx. apply Hx.
    by eapply list_elem_of_lookup_2.
  - apply (IH i j); [done..|lia].
Qed.

(** X2. The rows of the layout are the levels in use, each once, ordered
    from the highest level (top row) to the lowest: there is no empty row
    and no level is shown twice. *)
Theorem rows_are_levels_descending (lv : gmap string nat)
    (tables : list SchemaTable) :
  StronglySorted above (sortedLevels (groupByLevel lv tables))
  ∧ ∀ level, level ∈ sortedLevels (groupByLevel lv tables)
             ↔ ∃ t, t ∈ tables ∧ levelOf lv t = level.
Proof. split; [apply sortedLevels_above | apply sortedLevels_elem]. Qed.

(** X3. Of two input tables, the one with the higher level is drawn
    strictly above the other: its node has the smaller [y]. *)
Theorem higher_level_drawn_above (lv : gmap string nat)
    (tables : list SchemaTable) (t1 t2 : SchemaTable) :
  t1 ∈ tables → t2 ∈ tables → levelOf lv t2 < levelOf lv t1 →
  ∃ n1 n2,
    n1 ∈ First.nodes (First.calculateLayoutFrom lv tables)
    ∧ n2 ∈ First.nodes (First.calculateLayoutFrom lv tables)
    ∧ nodeTable n1 = t1 ∧ nodeTable n2 = t2
    ∧ (pos_y (First.position n1) < pos_y (First.position n2))%Z.
Proof.
  intros H1 H2 Hlt.
  destruct (table_placed lv tables t1 H1) as (i1 & j1 & Hi1 & _ & Hn1).
  destruct (table_placed lv tables t2 H2) as (i2 & j2 & Hi2 & _ & Hn2).
  eexists _, _. split_and!; [exact Hn1 | exact Hn2 | apply nodeTable_mkNode..|].
  pose proof (sortedLevels_above (groupByLevel lv tables)) as Hs.
  assert (i1 < i2) as Hrows.
  { destruct (decide (i1 < i2)) as [?|Hge]; [done|]. exfalso.
    destruct (decide (i1 = i2)) as [->|Hne].
    - rewrite Hi1 in Hi2. injection Hi2 as Heq. lia.
    - pose proof (StronglySorted_index _ i2 i1 _ _ Hs Hi2 Hi1 ltac:(lia)). lia. }
  simpl. unfold nodeHeight, verticalGap. lia.
Qed.

Lemma higher_level_drawn_above_witness :
  let lv : gmap string nat := {[ "a" := 0; "b" := 1; "c" := 0 ]} in
  tbl "b" [("a_id", "a", "id"); ("b_id", "b", "id")] ∈ cyclicTables
  ∧ tbl "c" [] ∈ cyclicTables
  ∧ levelOf lv (tbl "c" [])
    < levelOf lv (tbl "b" [("a_id", "a", "id"); ("b_id", "b", "id")])
  ∧ ∃ n1 n2,
      n1 ∈ First.nodes (First.calculateLayoutFrom lv cyclicTables)
      ∧ n2 ∈ First.nodes (First.calculateLayoutFrom lv cyclicTables)
      ∧ nodeTable n1 = tbl "b" [("a_id", "a", "id"); ("b_id", "b", "id")]
      ∧ nodeTable n2 = tbl "c" []
      ∧ (pos_y (First.position n1) < pos_y (First.position n2))%Z.
Proof.
  intros lv.
  assert (H1 : tbl "b" [("a_id", "a", "id"); ("b_id", "b", "id")] ∈ cyclicTables)
    by (right; left).
  assert (H2 : tbl "c" [] ∈ cyclicTables) by (do 2 right; left).
  assert (H3 : levelOf lv (tbl "c" [])
               < levelOf lv (tbl "b" [("a_id", "a", "id"); ("b_id", "b", "id")]))
    by (vm_compute; lia).
  split_and!; [exact H1 | exact H2 | exact H3 |].
  exact (higher_level_drawn_above lv cyclicTables _ _ H1 H2 H3).
Defined.

(** ** Positions *)

Lemma rowOf_nodePosition groupSize levelIndex tableIndex :
  rowOf (nodePosition groupSize levelIndex tableIndex) = levelIndex.
Proof.
  unfold rowOf, nodePosition, nodeHeight, verticalGap. simpl.
  rewrite Z.div_mul by done. lia.
Qed.

Lemma rankOf_nodePosition groupSize levelIndex tableIndex :
  rankOf groupSize (nodePosition groupSize levelIndex tableIndex) = tableIndex.
Proof.
  unfold rankOf, nodePosition, nodeWidth, horizontalGap. simpl.
  match goal with
  | |- Z.to_nat (?a / _) = _ =>
      replace a with (Z.of_nat tableIndex * 350)%Z by lia
  end.
  rewrite Z.div_mul by done. lia.
Qed.

Lemma NoDup_imap_rank {A B} (f : nat → A → B) (rank : B → nat)
    (l : list A) (off : nat) :
  (∀ i a, rank (f i a) = off + i) → NoDup (imap f l).
Proof.
  revert f off. induction l as [|a l IH]; intros f off Hrank.
  - constructor.
  - rewrite imap_cons. apply NoDup_cons. split.
    + intros (i & y & Heq & _)%elem_of_lookup_imap.
      apply (f_equal rank) in Heq. simpl in Heq. rewrite !Hrank in Heq. lia.
    + apply (IH _ (S off)). intros i y. simpl. rewrite Hrank. lia.
Qed.

Lemma elem_of_concat_imap {A B} (F : nat → A → list B) (ks : list A) (x : B) :
  x ∈ concat (imap F ks) → ∃ i k, ks !! i = Some k ∧ x ∈ F i k.
Proof.
  revert F. induction ks as [|k ks IH]; intros F Hx.
  - by apply elem_of_nil in Hx.
  - rewrite imap_cons in Hx. simpl in Hx.
    apply elem_of_app in Hx as [Hx|Hx].
    + by exists 0, k.
    + apply IH in Hx as (i & k' & Hi & Hx). by exists (S i), k'.
Qed.

Lemma NoDup_concat_imap_row {A B} (F : nat → A → list B) (row : B → nat)
    (ks : list A) (off : nat) :
  (∀ i k, NoDup (F i k)) →
  (∀ i k x, x ∈ F i k → row x = off + i) →
  NoDup (concat (imap F ks)).
Proof.
  revert F off. induction ks as [|k ks IH]; intros F off Hnd Hrow.
  - constructor.
  - rewrite imap_cons. simpl. apply NoDup_app. split_and!.
    + apply Hnd.
    + intros x Hx (i & k' & _ & Hx')%elem_of_concat_imap.
      apply Hrow in Hx. apply (Hrow (S i)) in Hx'. lia.
    + apply (IH _ (S off)).
      * intros i k'. apply Hnd.
      * intros i k' x Hx. simpl in Hx. apply Hrow in Hx. lia.
Qed.

Lemma fmap_imap_index {A B C} (h : B → C) (f : nat → A → B) (l : list A) :
  h <$> imap f l = imap (λ i a, h (f i a)) l.
Proof.
  revert f. induction l as [|a l IH]; intros f; [done|].
  rewrite !imap_cons, fmap_cons. f_equal. apply IH.
Qed.

Lemma fmap_concat_imap_index {A B C} (h : B → C) (F : nat → A → list B)
    (ks : list A) :
  h <$> concat (imap F ks) = concat (imap (λ i k, h <$> F i k) ks).
Proof.
  revert F. induction ks as [|k ks IH]; intros F; [done|].
  rewrite !imap_cons. simpl. rewrite fmap_app. f_equal. apply IH.
Qed.

Lemma placeNodes_positions g :
  First.position <$> First.placeNodes g
  = concat (imap (λ levelIndex level,
                    imap (λ tableIndex _,
                            nodePosition (length (default [] (g !! level)))
                                         levelIndex tableIndex)
                         (default [] (g !! level)))
                 (sortedLevels g)).
Proof.
  unfold First.placeNodes. rewrite fmap_concat_imap_index.
  f_equal. apply imap_ext. intros i level _. simpl.
  by rewrite fmap_imap_index.
Qed.

(** X4. No two nodes of a layout are placed at the same position. *)
Theorem node_positions_distinct (tables : list SchemaTable) :
  ∃ layout, First.calculateLayout tables = Some layout
            ∧ NoDup (First.position <$> First.nodes layout).
Proof.
  destruct (assignLevels_total (levelFuel tables) tables) as (lv & Hlv & _);
    [done|].
  exists (First.calculateLayoutFrom lv tables). split.
  { unfold First.calculateLayout, First.calculateLayoutWith. by rewrite Hlv. }
  simpl. rewrite placeNodes_positions.
  apply (NoDup_concat_imap_row _ rowOf _ 0).
  - intros i level.
    apply (NoDup_imap_rank _
             (rankOf (length (default [] (groupByLevel lv tables !! level))))
             _ 0).
    intros j _. apply rankOf_nodePosition.
  - intros i level p (j & t & -> & _)%elem_of_lookup_imap.
    apply rowOf_nodePosition.
Qed.

(** ** Edges and the handles of the nodes *)

Lemma String_length_app (a b : string) :
  String.length (a +:+ b) = String.length a + String.length b.
Proof. induction a as [|c a IH]; simpl; [done|]. by rewrite IH. Qed.

Lemma String_app_suffix_inj (a b s t : string) :
  String.length s = String.length t → a +:+ s = b +:+ t → a = b ∧ s = t.
Proof.
  intros Hlen. revert b. induction a as [|c a IH]; intros b Heq.
  - destruct b as [|d b]; [done|]. simpl in Heq.
    apply (f_equal String.length) in Heq. simpl in Heq.
    rewrite !String_length_app in Heq. simpl in Heq. lia.
  - destruct b as [|d b]; simpl in Heq.
    + apply (f_equal String.length) in Heq. simpl in Heq.
      rewrite !String_length_app in Heq. simpl in Heq. lia.
    + injection Heq as -> Heq. apply IH in Heq as [-> ->]. done.
Qed.

Lemma targetHandleId_inj n c1 c2 :
  TableNode.targetHandleId n c1 = TableNode.targetHandleId n c2 → c1 = c2.
Proof.
  unfold TableNode.targetHandleId. intros Heq.
  apply (inj (String.app n)) in Heq. apply (inj (String.app "-")) in Heq.
  by apply String_app_suffix_inj in Heq as [? _].
Qed.

Lemma sourceHandleId_inj n c1 c2 :
  TableNode.sourceHandleId n c1 = TableNode.sourceHandleId n c2 → c1 = c2.
Proof.
  unfold TableNode.sourceHandleId. intros Heq.
  apply (inj (String.app n)) in Heq. apply (inj (String.app "-")) in Heq.
  by apply String_app_suffix_inj in Heq as [? _].
Qed.

Lemma target_source_differ n c1 c2 :
  TableNode.targetHandleId n c1 ≠ TableNode.sourceHandleId n c2.
Proof.
  unfold TableNode.targetHandleId, TableNode.sourceHandleId. intros Heq.
  apply (inj (String.app n)) in Heq. apply (inj (String.app "-")) in Heq.
  by apply String_app_suffix_inj in Heq as [_ ?].
Qed.

Lemma target_handle_rendered data column :
  TableNode.targetHandleId (First.data_name data) column ∈ TableNode.handles data
  ↔ ∃ col, col ∈ First.data_columns data ∧ col_name col = column
           ∧ col_pk col = 1%Z.
Proof.
  unfold TableNode.handles. rewrite list_elem_of_bind. split.
  - intros (col & Hin & Hcol). exists col. unfold TableNode.columnHandles in Hin.
    apply elem_of_app in Hin as [Hin|Hin].
    + case_bool_decide; [|by apply elem_of_nil in Hin].
      apply list_elem_of_singleton, targetHandleId_inj in Hin. done.
    + case_decide; [|by apply elem_of_nil in Hin].
      apply list_elem_of_singleton in Hin. by apply target_source_differ in Hin.
  - intros (col & Hcol & <- & Hpk). exists col. split; [|done].
    unfold TableNode.columnHandles. apply elem_of_app. left.
    rewrite bool_decide_true by done. by left.
Qed.

Lemma source_handle_rendered data column :
  TableNode.sourceHandleId (First.data_name data) column ∈ TableNode.handles data
  ↔ ∃ col, col ∈ First.data_columns data ∧ col_name col = column
           ∧ column ∈ fk_from <$> First.data_foreignKeys data.
Proof.
  unfold TableNode.handles. rewrite list_elem_of_bind. split.
  - intros (col & Hin & Hcol). exists col. unfold TableNode.columnHandles in Hin.
    apply elem_of_app in Hin as [Hin|Hin].
    + case_bool_decide; [|by apply elem_of_nil in Hin].
      apply list_elem_of_singleton in Hin. symmetry in Hin.
      by apply target_source_differ in Hin.
    + case_decide as Hfk; [|by apply elem_of_nil in Hin].
      apply list_elem_of_singleton, sourceHandleId_inj in Hin. subst column.
      unfold TableNode.fkColumnNames in Hfk.
      by rewrite elem_of_list_to_set in Hfk.
  - intros (col & Hcol & <- & Hfk). exists col. split; [|done].
    unfold TableNode.columnHandles. apply elem_of_app. right.
    rewrite decide_True; [by left|].
    unfold TableNode.fkColumnNames. by rewrite elem_of_list_to_set.
Qed.

(** X5. An edge made for a foreign key of a table is part of the layout's
    edges; its source handle is one the source node renders exactly when the
    table has a column named like the key's [from]; its target handle is one
    the node of a table named like the key's target renders exactly when that
    table has a column named like the key's [to] with [pk = 1]. A foreign key
    to a column that is not the first primary-key column has no handle to
    attach to. *)
Theorem edge_handles_rendered (tables : list SchemaTable) (t : SchemaTable)
    (fk : ForeignKeyInfo) (i : nat) :
  t ∈ tables → foreignKeys t !! i = Some fk →
  First.mkEdge t i fk ∈ First.makeEdges tables
  ∧ (∀ a b c,
       sourceHandle (First.mkEdge t i fk)
         ∈ TableNode.handles (First.data (First.mkNode a b c t))
       ↔ ∃ col, col ∈ columns t ∧ col_name col = fk_from fk)
  ∧ ∀ t2 a b c, name t2 = fk_table fk →
      (targetHandle (First.mkEdge t i fk)
         ∈ TableNode.handles (First.data (First.mkNode a b c t2))
       ↔ ∃ col, col ∈ columns t2 ∧ col_name col = fk_to fk
                ∧ col_pk col = 1%Z).
Proof.
  intros Ht Hfk. split_and!.
  - unfold First.makeEdges. apply list_elem_of_bind. exists t. split; [|done].
    by apply (elem_of_lookup_imap_2 (First.mkEdge t) _ fk i).
  - intros a b c.
    rewrite (source_handle_rendered (First.data (First.mkNode a b c t))
               (fk_from fk)). simpl.
    split; intros (col & ? & ? & ?) || intros (col & ? & ?); exists col;
      split_and!; try done.
    apply list_elem_of_fmap_2. by eapply list_elem_of_lookup_2.
  - intros t2 a b c Hname.
    change (targetHandle (First.mkEdge t i fk))
      with (TableNode.targetHandleId (fk_table fk) (fk_to fk)).
    rewrite <- Hname.
    apply (target_handle_rendered (First.data (First.mkNode a b c t2))).
Qed.

Lemma edge_handles_rendered_witness :
  ordersTable ∈ [usersTable; ordersTable]
  ∧ foreignKeys ordersTable !! 0
    = Some {| fk_from := "user_id"; fk_table := "users"; fk_to := "id" |}
  ∧ sourceHandle
      (First.mkEdge ordersTable 0
         {| fk_from := "user_id"; fk_table := "users"; fk_to := "id" |})
    ∈ TableNode.handles (First.data (First.mkNode 1 0 0 ordersTable)).
Proof.
  assert (H1 : ordersTable ∈ [usersTable; ordersTable]) by (right; left).
  assert (H2 : foreignKeys ordersTable !! 0
               = Some {| fk_from := "user_id"; fk_table := "users";
                         fk_to := "id" |}) by reflexivity.
  split_and!; [exact H1 | exact H2 |].
  apply (proj1 (proj2 (edge_handles_rendered _ _ _ _ H1 H2)) 1 0 0).
  exists {| col_name := "user_id"; col_type := "INTEGER";
            col_notnull := 1; col_pk := 0 |}.
  split; [right; left | reflexivity].
Defined.

(** X6. The icon of a column and the handles of its node agree: the icon
    is a key exactly when the column gets a target handle, and it carries
    the link mark exactly when the column gets a source handle. *)
Theorem icon_matches_handles (data : First.TableNodeData) (column : ColumnInfo) :
  let icon := TableNode.getColumnIcon column (First.data_foreignKeys data)
                (First.data_indexes data) in
  (isKey icon = true
   ↔ TableNode.targetHandleId (First.data_name data) (col_name column)
       ∈ TableNode.columnHandles data column)
  ∧ (hasLink icon = true
     ↔ TableNode.sourceHandleId (First.data_name data) (col_name column)
         ∈ TableNode.columnHandles data column).
Proof.
  cbv zeta. unfold TableNode.getColumnIcon, TableNode.columnHandles.
  assert (Hfk : existsb (λ fk, bool_decide (fk_from fk = col_name column))
                  (First.data_foreignKeys data) = true
                ↔ col_name column
                    ∈ TableNode.fkColumnNames (First.data_foreignKeys data)).
  { unfold TableNode.fkColumnNames.
    rewrite elem_of_list_to_set, list_elem_of_fmap, existsb_exists.
    setoid_rewrite <- list_elem_of_In. setoid_rewrite bool_decide_eq_true.
    naive_solver. }
  rewrite !elem_of_app. split.
  - case_bool_decide as Hpk; simpl.
    + split; [intros _; left; by left|done].
    + split; [by repeat case_match|].
      intros [Hin|Hin]; [by apply elem_of_nil in Hin|].
      case_decide; [|by apply elem_of_nil in Hin].
      apply list_elem_of_singleton in Hin. by apply target_source_differ in Hin.
  - destruct (existsb _ (First.data_foreignKeys data)) eqn:Efk.
    + assert (Hin := proj1 Hfk eq_refl). rewrite decide_True by done.
      split; [intros _; right; by left|]. intros _.
      by case_bool_decide.
    + assert (Hnot : col_name column
                       ∉ TableNode.fkColumnNames (First.data_foreignKeys data))
        by (intros Hin; apply Hfk in Hin; done).
      rewrite decide_False by done. split.
      * case_bool_decide; simpl; [done|]. by repeat case_match.
      * intros [Hin|Hin]; [|by apply elem_of_nil in Hin].
        case_bool_decide; [|by apply elem_of_nil in Hin].
        apply list_elem_of_singleton in Hin. symmetry in Hin.
        by apply target_source_differ in Hin.
Qed.

(** * Further properties of the schema visualizer *)

Lemma tableKey_Permutation tables tables' :
  tables ≡ₚ tables' →
  SchemaVisualizer.tableKey tables = SchemaVisualizer.tableKey tables'.
Proof.
  intros Hperm. unfold SchemaVisualizer.tableKey. f_equal.
  apply (StronglySorted_unique String.le).
  - apply StronglySorted_merge_sort; apply _.
  - apply StronglySorted_merge_sort; apply _.
  - rewrite !merge_sort_Permutation. by rewrite Hperm.
Qed.

(** X7. Listing the same tables in another order does not change the table
    key, so such a render does not run the load effect and leaves the state
    as it is. *)
Theorem reordering_keeps_state (acc : SchemaVisualizer.Accessors)
    (previous tables : list TableInfo) (st : SchemaVisualizer.State) :
  previous ≡ₚ tables →
  SchemaVisualizer.tableKey previous = SchemaVisualizer.tableKey tables
  ∧ SchemaVisualizer.update acc previous tables st = st.
Proof.
  intros Hperm. pose proof (tableKey_Permutation _ _ Hperm) as Hkey.
  split; [done|]. unfold SchemaVisualizer.update.
  by rewrite bool_decide_true.
Qed.

Lemma reordering_keeps_state_witness :
  usersOrders ≡ₚ reverse usersOrders
  ∧ SchemaVisualizer.tableKey usersOrders
    = SchemaVisualizer.tableKey (reverse usersOrders)
  ∧ SchemaVisualizer.update bareAccessors usersOrders (reverse usersOrders)
      SchemaVisualizer.initial
    = SchemaVisualizer.initial.
Proof.
  assert (H : usersOrders ≡ₚ reverse usersOrders)
    by (symmetry; apply reverse_Permutation).
  split; [exact H|].
  exact (reordering_keeps_state bareAccessors usersOrders (reverse usersOrders)
           SchemaVisualizer.initial H).
Defined.



(** X8. Once the schema has been loaded, a render whose table list has as
    many tables as the schema data held leaves the whole state as it is,
    whatever the tables are now called. *)
Theorem same_count_keeps_state (acc : SchemaVisualizer.Accessors)
    (previous tables : list TableInfo) (st : SchemaVisualizer.State) :
  SchemaVisualizer.hasLoaded st = true →
  length (SchemaVisualizer.schemaData st) = length tables →
  SchemaVisualizer.update acc previous tables st = st.
Proof.
  intros Hloaded Hlen. unfold SchemaVisualizer.update.
  case_bool_decide; [done|]. unfold SchemaVisualizer.loadEffect.
  rewrite Hloaded, Hlen, Nat.eqb_refl. done.
Qed.

Lemma same_count_keeps_state_witness :
  let st := SchemaVisualizer.mount bareAccessors usersOrders in
  SchemaVisualizer.hasLoaded st = true
  ∧ length (SchemaVisualizer.schemaData st) = length usersInvoices
  ∧ SchemaVisualizer.update bareAccessors usersOrders usersInvoices st = st.
Proof.
  intros st.
  assert (H1 : SchemaVisualizer.hasLoaded st = true) by (by vm_compute).
  assert (H2 : length (SchemaVisualizer.schemaData st) = length usersInvoices)
    by (by vm_compute).
  split_and!; [exact H1 | exact H2 |].
  exact (same_count_keeps_state bareAccessors usersOrders usersInvoices st H1 H2).
Defined.








(** * Further properties of [DatabaseView] *)


(** X12. Every call of [handleUpdateRow] reaches at most one backend
    operation, and only one of the backend that is active: never
    [dbService] while the networked backend is active, never [pgService]
    while it is not. *)
Theorem one_call_to_the_active_backend (svc : DatabaseView.Services)
    (selectedTable : string) (isPostgresActive : bool)
    (oldRow : option RowData) (newRow : RowData) :
  let calls := snd (DatabaseView.handleUpdateRow svc selectedTable
                      isPostgresActive oldRow newRow) in
  length (filter (λ c, DatabaseView.reachesBackend c = true) calls) ≤ 1
  ∧ Forall (λ c, DatabaseView.reachesBackend c = true →
                 isPostgresCall c = isPostgresActive) calls.
Proof.
  cbv zeta. unfold DatabaseView.handleUpdateRow.
  repeat (case_bool_decide || case_match); simpl;
    (split; [try done; lia | repeat constructor; done]).
Qed.

Lemma scalar_not_delete (newRow : RowData) :
  (∀ k v, newRow !! k = Some v → scalar v = true) →
  DatabaseView.isDeleteOperation newRow = false.
Proof.
  intros Hscalar. unfold DatabaseView.isDeleteOperation.
  destruct (newRow !! "rowIds") as [v|] eqn:Eids.
  - apply Hscalar in Eids. destruct v; simpl in *; try done;
      by rewrite ?andb_false_r.
  - simpl. by rewrite andb_false_r.
Qed.

(** X13. A row whose cells hold no array is never taken for a delete
    request, whatever its columns are called: with a table selected and a
    prior snapshot, the one call made is the update of the active backend,
    with the table, the snapshot and the new row as given, and the answer of
    the embedded backend is handed back as it is. *)
Theorem row_edit_is_forwarded (svc : DatabaseView.Services)
    (selectedTable : string) (isPostgresActive : bool)
    (old newRow : RowData) :
  selectedTable ≠ "" →
  (∀ k v, newRow !! k = Some v → scalar v = true) →
  let r := DatabaseView.handleUpdateRow svc selectedTable isPostgresActive
             (Some old) newRow in
  snd r !! 0
  = Some (if isPostgresActive
          then DatabaseView.PgUpdateRow selectedTable old newRow
          else DatabaseView.DbUpdateRow selectedTable old newRow)
  ∧ (isPostgresActive = false →
     r = (DatabaseView.db_updateRow svc selectedTable old newRow,
          [DatabaseView.DbUpdateRow selectedTable old newRow])).
Proof.
  intros Htable Hscalar. cbv zeta. unfold DatabaseView.handleUpdateRow.
  rewrite bool_decide_false by done. rewrite (scalar_not_delete _ Hscalar).
  destruct isPostgresActive; [|done].
  by destruct (DatabaseView.pg_updateRow svc _ _ _).
Qed.

Lemma row_edit_is_forwarded_witness :
  "users" ≠ ""
  ∧ (∀ k v, annRow !! k = Some v → scalar v = true)
  ∧ snd (DatabaseView.handleUpdateRow failingServices "users" false
           (Some annRow) annRow) !! 0
    = Some (DatabaseView.DbUpdateRow "users" annRow annRow).
Proof.
  assert (H1 : "users" ≠ "") by done.
  assert (H2 : ∀ k v, annRow !! k = Some v → scalar v = true).
  { intros k v Hk. unfold annRow in Hk.
    apply lookup_insert_Some in Hk as [[_ <-]|[_ Hk]]; [done|].
    apply lookup_singleton_Some in Hk as [_ <-]. done. }
  split_and!; [exact H1 | exact H2 |].
  exact (proj1 (row_edit_is_forwarded failingServices "users" false
                  annRow annRow H1 H2)).
Defined.

(** X14. A delete request without identifiers is still sent to the
    embedded backend, as one statement whose IN list is empty. *)
Theorem delete_without_ids (svc : DatabaseView.Services)
    (selectedTable : string) (oldRow : option RowData) (newRow : RowData) :
  selectedTable ≠ "" →
  DatabaseView.isDeleteOperation newRow = true →
  DatabaseView.rowIds newRow = [] →
  snd (DatabaseView.handleUpdateRow svc selectedTable false oldRow newRow)
  = [DatabaseView.DbExecuteBatchOperations
       ["DELETE FROM " +:+ selectedTable +:+ " WHERE "
          +:+ DatabaseView.primaryKeyColumn newRow +:+ " IN ()"]].
Proof.
  intros Htable Hdel Hids. unfold DatabaseView.handleUpdateRow.
  rewrite bool_decide_false by done. rewrite Hdel. simpl.
  unfold DatabaseView.deleteSql. by rewrite Hids.
Qed.

Lemma delete_without_ids_witness :
  "users" ≠ ""
  ∧ DatabaseView.isDeleteOperation emptyDelete = true
  ∧ DatabaseView.rowIds emptyDelete = []
  ∧ snd (DatabaseView.handleUpdateRow failingServices "users" false None
           emptyDelete)
    = [DatabaseView.DbExecuteBatchOperations
         ["DELETE FROM users WHERE id IN ()"]].
Proof.
  assert (H1 : "users" ≠ "") by done.
  assert (H2 : DatabaseView.isDeleteOperation emptyDelete = true)
    by reflexivity.
  assert (H3 : DatabaseView.rowIds emptyDelete = []) by reflexivity.
  split_and!; [exact H1 | exact H2 | exact H3 |].
  exact (delete_without_ids failingServices "users" None emptyDelete H1 H2 H3).
Defined.

(** ** Saving *)

(** X15. Every run of [handleSaveDatabase] ends with a toast and shows no
    other toast, whichever way it goes. *)
Theorem save_shows_one_toast (isPostgresActive : bool)
    (exported : option (list Z)) (currentFilePath : option string)
    (electron : option (string → list Z → option DatabaseView.SaveResult)) :
  let calls := DatabaseView.handleSaveDatabase isPostgresActive exported
                 currentFilePath electron in
  length (filter (λ c, DatabaseView.isToast c = true) calls) = 1
  ∧ DatabaseView.isToast <$> last calls = Some true.
Proof.
  cbv zeta. unfold DatabaseView.handleSaveDatabase.
  repeat (case_bool_decide || case_match); done.
Qed.

(** X16. [handleSaveDatabase] writes the file exactly when the embedded
    backend is active, the export handed back data, a non-empty file path
    is known and the [electron] bridge is present; what it writes is the
    exported data, unchanged, to that path, once. With the networked backend
    active it does not even ask for an export. *)
Theorem save_writes_the_export (isPostgresActive : bool)
    (exported : option (list Z)) (currentFilePath : option string)
    (electron : option (string → list Z → option DatabaseView.SaveResult)) :
  let calls := DatabaseView.handleSaveDatabase isPostgresActive exported
                 currentFilePath electron in
  (∀ path bytes,
     DatabaseView.SaveDatabase path bytes ∈ calls
     ↔ isPostgresActive = false ∧ exported = Some bytes
       ∧ currentFilePath = Some path ∧ path ≠ "" ∧ is_Some electron)
  ∧ length (filter (λ c, DatabaseView.isWrite c = true) calls) ≤ 1
  ∧ (isPostgresActive = true → DatabaseView.DbExportDatabase ∉ calls).
Proof.
  cbv zeta. unfold DatabaseView.handleSaveDatabase. split_and!.
  - intros path bytes. destruct isPostgresActive.
    { split; [|by intros (? & _)].
      intros [?|[]%elem_of_nil]%elem_of_cons. done. }
    destruct exported as [data|].
    2:{ split; [|by intros (_ & ? & _)]. rewrite !elem_of_cons, elem_of_nil.
        naive_solver. }
    destruct currentFilePath as [p|], electron as [save|].
    + case_bool_decide as Hp.
      * split.
        -- rewrite !elem_of_cons, elem_of_nil. naive_solver.
        -- intros (_ & _ & [= <-] & ? & _). done.
      * split.
        -- intros [?|[[= <- <-]|Hin]%elem_of_cons]%elem_of_cons; [done| |].
           ++ by split_and!.
           ++ destruct (save p data) as [result|];
                [destruct (DatabaseView.success result)|];
                rewrite ?elem_of_cons, elem_of_nil in Hin; naive_solver.
        -- intros (_ & [= <-] & [= <-] & _ & _). right. left.
    + split; [|by intros (_ & _ & _ & _ & [? ?])].
      rewrite !elem_of_cons, elem_of_nil. naive_solver.
    + split; [|by intros (_ & _ & ? & _)].
      rewrite !elem_of_cons, elem_of_nil. naive_solver.
    + split; [|by intros (_ & _ & ? & _)].
      rewrite !elem_of_cons, elem_of_nil. naive_solver.
  - repeat (case_bool_decide || case_match); simpl; lia.
  - intros ->. intros [?|[]%elem_of_nil]%elem_of_cons. done.
Qed.

(** X17. The time of the last save is set exactly when a write was made and
    [saveDatabase] answered with success; then the toast is the success
    toast. A failed or throwing write never touches it. *)
Theorem last_saved_after_success (exported : option (list Z))
    (currentFilePath : option string)
    (saveDatabase : string → list Z → option DatabaseView.SaveResult) :
  let calls := DatabaseView.handleSaveDatabase false exported currentFilePath
                 (Some saveDatabase) in
  (DatabaseView.SetLastSaved ∈ calls
   ↔ ∃ path bytes result,
       DatabaseView.SaveDatabase path bytes ∈ calls
       ∧ saveDatabase path bytes = Some result
       ∧ DatabaseView.success result = true)
  ∧ (DatabaseView.SetLastSaved ∈ calls →
     last calls
     = Some (DatabaseView.Toast "Success" "Database saved successfully" false)).
Proof.
  cbv zeta. unfold DatabaseView.handleSaveDatabase.
  destruct exported as [data|]; [destruct currentFilePath as [path|]|].
  - case_bool_decide as Hpath.
    + split; [split|]; rewrite ?elem_of_cons, ?elem_of_nil.
      * naive_solver.
      * intros (p & b & r & Hin & _). rewrite !elem_of_cons, elem_of_nil in Hin.
        naive_solver.
      * naive_solver.
    + destruct (saveDatabase path data) as [result|] eqn:Esave;
        [destruct (DatabaseView.success result) eqn:Esucc|].
      * split; [split|]; [|intros _; do 2 right; left|done].
        intros _. exists path, data, result. split_and!; [right; left|done..].
      * split; [split|]; rewrite ?elem_of_cons, ?elem_of_nil.
        -- naive_solver.
        -- intros (p & b & r & Hin & Hs & Hok).
           rewrite !elem_of_cons, elem_of_nil in Hin.
           destruct Hin as [?|[[= <- <-]|[?|[]]]]; try done. congruence.
        -- naive_solver.
      * split; [split|]; rewrite ?elem_of_cons, ?elem_of_nil.
        -- naive_solver.
        -- intros (p & b & r & Hin & Hs & Hok).
           rewrite !elem_of_cons, elem_of_nil in Hin.
           destruct Hin as [?|[[= <- <-]|[?|[]]]]; try done. congruence.
        -- naive_solver.
  - split; [split|]; rewrite ?elem_of_cons, ?elem_of_nil.
    + naive_solver.
    + intros (p & b & r & Hin & _). rewrite !elem_of_cons, elem_of_nil in Hin.
      naive_solver.
    + naive_solver.
  - split; [split|]; rewrite ?elem_of_cons, ?elem_of_nil.
    + naive_solver.
    + intros (p & b & r & Hin & _). rewrite !elem_of_cons, elem_of_nil in Hin.
      naive_solver.
    + naive_solver.
Qed.

(** ** The name shown for the database *)

Lemma splitPath_nonempty path : splitPath path ≠ [].
Proof.
  destruct path as [|c rest]; simpl; [done|].
  destruct (isSeparator c); [done|]. by destruct (splitPath rest).
Qed.

Lemma splitPath_separator dir c base :
  isSeparator c = true →
  splitPath (dir +:+ String c base) = splitPath dir ++ splitPath base.
Proof.
  intros Hc. induction dir as [|d dir IH]; simpl.
  - by rewrite Hc.
  - rewrite IH. destruct (isSeparator d); [done|].
    pose proof (splitPath_nonempty dir). by destruct (splitPath dir).
Qed.

Lemma splitPath_plain base : hasSeparator base = false → splitPath base = [base].
Proof.
  induction base as [|c base IH]; simpl; [done|].
  intros [Hc Hrest]%orb_false_iff. by rewrite Hc, IH.
Qed.

(** X18. The name shown for the database is never empty. For an embedded
    database whose file path ends, after a slash or a backslash, in a
    component without separators, the name is that component, and it is
    ["SQLite"] when the component is empty (a path ending in a
    separator). *)
Theorem databaseName_is_last_component (dir base : string) (c : Ascii.ascii)
    (database : option string) :
  isSeparator c = true → hasSeparator base = false →
  databaseName false database (Some (dir +:+ String c base))
  = (if bool_decide (base = "") then "SQLite" else base)
  ∧ ∀ isPostgresActive currentFilePath,
      databaseName isPostgresActive database currentFilePath ≠ "".
Proof.
  intros Hc Hbase. split.
  - unfold databaseName. simpl.
    rewrite (splitPath_separator dir c base Hc).
    rewrite (splitPath_plain base Hbase). by rewrite last_snoc.
  - intros pg path. unfold databaseName, orElse.
    repeat (case_bool_decide || case_match); done.
Qed.

Lemma databaseName_is_last_component_witness :
  isSeparator (Ascii.ascii_of_nat 47) = true
  ∧ hasSeparator "app.db" = false
  ∧ databaseName false None (Some "/home/ann/app.db") = "app.db".
Proof.
  assert (H1 : isSeparator (Ascii.ascii_of_nat 47) = true) by reflexivity.
  assert (H2 : hasSeparator "app.db" = false) by reflexivity.
  split_and!; [exact H1 | exact H2 |].
  exact (proj1 (databaseName_is_last_component "/home/ann" "app.db"
                  (Ascii.ascii_of_nat 47) None H1 H2)).
Defined.

(** * The relationship graph *)

Lemma Set_add_spec x s :
  (NoDup s → NoDup (Set_add x s))
  ∧ ∀ ref, ref ∈ Set_add x s ↔ ref ∈ s ∨ ref = x.
Proof.
  unfold Set_add. case_decide as Hin; split.
  - done.
  - intros ref. split; [by left|]. by intros [?| ->].
  - intros Hnd. apply NoDup_app. split_and!; [done| |apply NoDup_singleton].
    intros y Hy ->%list_elem_of_singleton. done.
  - intros ref. rewrite elem_of_app, list_elem_of_singleton. done.
Qed.

Lemma addKeys_lookup (fks : list ForeignKeyInfo) (k' : string) :
  ∀ m : gmap string (list string),
    let m' := foldl (λ m fk, alter (Set_add (fk_table fk)) k' m) m fks in
    (∀ k, k ≠ k' → m' !! k = m !! k)
    ∧ (m !! k' = None → m' !! k' = None)
    ∧ ∀ refs, m !! k' = Some refs →
        ∃ refs', m' !! k' = Some refs' ∧ (NoDup refs → NoDup refs')
                 ∧ ∀ ref, ref ∈ refs'
                          ↔ ref ∈ refs ∨ ∃ fk, fk ∈ fks ∧ fk_table fk = ref.
Proof.
  induction fks as [|fk fks IH]; intros m; cbn [foldl]; cbv zeta.
  - split_and!; [done..|]. intros refs Hm. exists refs. split_and!; [done..|].
    intros ref. split; [by left|]. intros [?|(? & []%elem_of_nil & _)]. done.
  - destruct (IH (alter (Set_add (fk_table fk)) k' m)) as (Hother & Hnone & Hsome).
    split_and!.
    + intros k Hk. rewrite Hother by done. by apply lookup_alter_ne.
    + intros Hm. apply Hnone. by rewrite lookup_alter_eq, Hm.
    + intros refs Hm.
      destruct (Hsome (Set_add (fk_table fk) refs)) as (refs' & Hl & Hnd & Hin).
      { by rewrite lookup_alter_eq, Hm. }
      destruct (Set_add_spec (fk_table fk) refs) as [Hnd0 Hin0].
      exists refs'. split_and!; [done|auto|]. intros ref.
      rewrite Hin, Hin0. split.
      * intros [[?| ->]|(fk' & ? & ?)]; [by left| |].
        -- right. exists fk. split; [left|done].
        -- right. exists fk'. split; [by right|done].
      * intros [?|(fk' & [->|?]%elem_of_cons & <-)].
        -- left. by left.
        -- left. by right.
        -- right. by exists fk'.
Qed.

Lemma addForeignKeys_spec (tables : list SchemaTable) (k : string) :
  ∀ m : gmap string (list string),
    (m !! k = None → addForeignKeys tables m !! k = None)
    ∧ ∀ refs, m !! k = Some refs →
        ∃ refs', addForeignKeys tables m !! k = Some refs'
                 ∧ (NoDup refs → NoDup refs')
                 ∧ ∀ ref, ref ∈ refs' ↔ ref ∈ refs ∨ references tables k ref.
Proof.
  unfold addForeignKeys.
  induction tables as [|t tables IH]; intros m; cbn [foldl].
  - split; [done|]. intros refs Hm. exists refs. split_and!; [done..|].
    intros ref. split; [by left|].
    intros [?|(? & ? & []%elem_of_nil & _)]. done.
  - destruct (addKeys_lookup (foreignKeys t) (name t) m)
      as (Hother & Hnone & Hsome).
    set (m1 := foldl (λ m fk, alter (Set_add (fk_table fk)) (name t) m) m
                 (foreignKeys t)) in *.
    destruct (IH m1) as [IHnone IHsome].
    destruct (decide (k = name t)) as [->|Hne].
    + split.
      * intros Hm. apply IHnone. by apply Hnone.
      * intros refs Hm. destruct (Hsome refs Hm) as (refs1 & Hl1 & Hnd1 & Hin1).
        destruct (IHsome refs1 Hl1) as (refs' & Hl & Hnd & Hin).
        exists refs'. split_and!; [done|auto|]. intros ref.
        rewrite Hin, Hin1. unfold references. split.
        -- intros [[?|(fk & ? & ?)]|(t' & fk & ? & ? & ? & ?)].
           ++ by left.
           ++ right. exists t, fk. split_and!; [left|done..].
           ++ right. exists t', fk. split_and!; [by right|done..].
        -- intros [?|(t' & fk & [->|?]%elem_of_cons & ? & ? & ?)].
           ++ left. by left.
           ++ left. right. by exists fk.
           ++ right. by exists t', fk.
    + rewrite <- (Hother k Hne). split; [apply IHnone|].
      intros refs Hm. destruct (IHsome refs Hm) as (refs' & Hl & Hnd & Hin).
      exists refs'. split_and!; [done..|]. intros ref. rewrite Hin.
      unfold references. split.
      * intros [?|(t' & fk & ? & ? & ? & ?)]; [by left|].
        right. exists t', fk. split_and!; [by right|done..].
      * intros [?|(t' & fk & [->|?]%elem_of_cons & ? & ? & ?)];
          [by left|done|].
        right. by exists t', fk.
Qed.

Lemma initRelationships_None tables n :
  n ∉ name <$> tables → initRelationships tables !! n = None.
Proof.
  unfold initRelationships.
  assert (H : ∀ m0 : gmap string (list string),
            n ∉ name <$> tables → m0 !! n = None →
            foldl (λ m table, <[name table := []]> m) m0 tables !! n = None).
  { induction tables as [|t tables IH]; intros m0 Hn Hm; simpl; [done|].
    rewrite fmap_cons, not_elem_of_cons in Hn. destruct Hn as [Hne Hn].
    apply IH; [done|]. by rewrite lookup_insert_ne. }
  intros Hn. by apply H.
Qed.

(** X19. The relationship graph built by [calculateLayout] has an entry
    for exactly the table names of the input, and the entry of a name holds,
    each once, exactly the tables that some foreign key of a table of that
    name points to: several foreign keys to one table count once. *)
Theorem relationships_are_referenced_sets (tables : list SchemaTable)
    (k : string) :
  match buildRelationships tables !! k with
  | Some refs =>
      k ∈ name <$> tables ∧ NoDup refs
      ∧ ∀ ref, ref ∈ refs ↔ references tables k ref
  | None => k ∉ name <$> tables
  end.
Proof.
  unfold buildRelationships.
  destruct (addForeignKeys_spec tables k (initRelationships tables))
    as [Hnone Hsome].
  destruct (decide (k ∈ name <$> tables)) as [Hin|Hnot].
  - destruct (Hsome [] (initRelationships_lookup tables k Hin))
      as (refs & -> & Hnd & Href).
    split_and!; [done|apply Hnd; constructor|].
    intros ref. rewrite Href. split; [|by right].
    intros [[]%elem_of_nil|?]. done.
  - by rewrite (Hnone (initRelationships_None tables k Hnot)).
Qed.

(** * Exporting the schema image *)

Ltac solve_export_toasts :=
  intros _; apply Forall_forall; intros c Hc;
  rewrite ?elem_of_cons, ?elem_of_nil in Hc;
  intros Htoast;
  repeat (destruct Hc as [Hc|Hc]; [subst c; simpl in Htoast; try done; auto|]);
  try done.

(** X20. [handleSchemaExport] shows at most one toast. What it hands to the
    [electron] bridge is the non-empty image produced for the requested
    format. Without the bridge the only toasts it can show are the two
    failure toasts, so a produced image is dropped without a success
    message. The success toast is shown exactly when the bridge answered
    with success. *)
Theorem schema_export_toasts
    (visualizer : option (ImageFormat → option (option string)))
    (electron : option (string → ImageFormat → option DatabaseView.SaveResult))
    (format : ImageFormat) :
  let calls := handleSchemaExport visualizer electron format in
  length (filter (λ c, isExportToast c = true) calls) ≤ 1
  ∧ (∀ url f, ElectronExport url f ∈ calls →
       f = format ∧ url ≠ ""
       ∧ ∃ exportSchema, visualizer = Some exportSchema
                         ∧ exportSchema format = Some (Some url))
  ∧ (electron = None →
     Forall (λ c, isExportToast c = true →
                  c = exportFailed
                  ∨ c = ExportToast "Error" "Failed to generate schema image"
                          true) calls)
  ∧ (ExportToast "Success" ("Schema exported as " +:+ formatUpper format) false
       ∈ calls
     ↔ ∃ url exportDatabase result,
         ElectronExport url format ∈ calls
         ∧ electron = Some exportDatabase
         ∧ exportDatabase url format = Some result
         ∧ DatabaseView.success result = true).
Proof.
  cbv zeta. unfold handleSchemaExport.
  destruct visualizer as [exportSchema|].
  2:{ split_and!; [simpl; lia | by intros ? ? ?%elem_of_nil | by constructor |].
      split; [by intros ?%elem_of_nil|].
      by intros (? & ? & ? & ?%elem_of_nil & _). }
  destruct (exportSchema format) as [[url|]|] eqn:Eschema.
  - case_bool_decide as Hurl.
    + split_and!; [simpl; lia | | solve_export_toasts |].
      * intros u f. rewrite !elem_of_cons, elem_of_nil. naive_solver.
      * split; rewrite ?elem_of_cons, ?elem_of_nil; [naive_solver|].
        intros (u & ? & ? & Hin & _).
        rewrite !elem_of_cons, elem_of_nil in Hin. naive_solver.
    + destruct electron as [exportDatabase|].
      2:{ split_and!; [simpl; lia | | solve_export_toasts |].
          - intros u f. rewrite !elem_of_cons, elem_of_nil. naive_solver.
          - split; rewrite ?elem_of_cons, ?elem_of_nil; [naive_solver|].
            by intros (? & ? & ? & _ & ? & _). }
      assert (Hexp : ∀ rest u f,
                ElectronExport u f
                  ∈ ExportSchema format :: ElectronExport url format :: rest →
                (∀ c, c ∈ rest → isExportToast c = true) →
                u = url ∧ f = format).
      { intros rest u f [?|[[= -> ->]|Hin]%elem_of_cons]%elem_of_cons Hrest;
          [done|done|]. by apply Hrest in Hin. }
      destruct (exportDatabase url format) as [result|] eqn:Edb;
        [destruct (DatabaseView.success result) eqn:Esucc;
         [|case_bool_decide as Hcancel]|].
      * split_and!; [simpl; lia | | done |].
        -- intros u f Hin. apply Hexp in Hin as [-> ->].
           ++ split_and!; [done..|]. by exists exportSchema.
           ++ by intros c ->%list_elem_of_singleton.
        -- split; [|intros _; do 2 right; left].
           intros _. exists url, exportDatabase, result.
           split_and!; [right; left|done..].
      * split_and!; [simpl; lia | | done |].
        -- intros u f Hin. apply Hexp in Hin as [-> ->].
           ++ split_and!; [done..|]. by exists exportSchema.
           ++ by intros c ?%elem_of_nil.
        -- split; rewrite ?elem_of_cons, ?elem_of_nil; [naive_solver|].
           intros (u & e & r & Hin & [= <-] & Hr & Hs).
           apply Hexp in Hin as [-> _]; [congruence|by intros c ?%elem_of_nil].
      * split_and!; [simpl; lia | | done |].
        -- intros u f Hin. apply Hexp in Hin as [-> ->].
           ++ split_and!; [done..|]. by exists exportSchema.
           ++ by intros c ->%list_elem_of_singleton.
        -- split; rewrite ?elem_of_cons, ?elem_of_nil; [naive_solver|].
           intros (u & e & r & Hin & [= <-] & Hr & Hs).
           apply Hexp in Hin as [-> _]; [congruence|].
           by intros c ->%list_elem_of_singleton.
      * split_and!; [simpl; lia | | done |].
        -- intros u f Hin. apply Hexp in Hin as [-> ->].
           ++ split_and!; [done..|]. by exists exportSchema.
           ++ by intros c ->%list_elem_of_singleton.
        -- split; rewrite ?elem_of_cons, ?elem_of_nil; [naive_solver|].
           intros (u & e & r & Hin & [= <-] & Hr & Hs).
           apply Hexp in Hin as [-> _]; [congruence|].
           by intros c ->%list_elem_of_singleton.
  - split_and!; [simpl; lia | | solve_export_toasts |].
    + intros u f. rewrite !elem_of_cons, elem_of_nil. naive_solver.
    + split; rewrite ?elem_of_cons, ?elem_of_nil; [naive_solver|].
      intros (u & ? & ? & Hin & _).
      rewrite !elem_of_cons, elem_of_nil in Hin. naive_solver.
  - split_and!; [simpl; lia | | solve_export_toasts |].
    + intros u f. rewrite !elem_of_cons, elem_of_nil. naive_solver.
    + split; rewrite ?elem_of_cons, ?elem_of_nil; [naive_solver|].
      intros (u & ? & ? & Hin & _).
      rewrite !elem_of_cons, elem_of_nil in Hin. naive_solver.
Qed.
